(** * Verification of the in-memory sort kernel of be/src/exec/chunks_sorter.h

    Shallow embedding of [DataSegment], its composite comparator
    [DataSegment::compare_at], the boundary pruning classification
    [DataSegment::get_filter_array], the sink/source life cycle of
    [ChunksSorter] and the runtime filter builder/updater of the
    [detail] namespace. *)

From Stdlib Require Import ZArith List Lia Bool Sorting.Sorted Sorting.Permutation.
Import ListNotations.
Open Scope Z_scope.

(** ** Segments and the composite comparator (generic over the column type) *)

Section Segment.
(** [Chunk] is the opaque row batch, [Column] a key column. *)
Variable Chunk : Type.
Variable Column : Type.
(** [Column::compare_at(left, right, rhs, nan_direction_hint)] *)
Variable Column_compare_at : Column -> nat -> nat -> Column -> Z -> Z.
(** value returned for [v[i]] out of range; never reached on well-formed input *)
Variable column_default : Column.
(** [Chunk()]: the empty chunk. *)
Variable empty_chunk : Chunk.

Record DataSegment := mkDataSegment {
  chunk : Chunk;
  order_by_columns : list Column
}.

(** [void clear()]: fresh empty chunk, key columns dropped. *)
Definition clear (s : DataSegment) : DataSegment :=
  mkDataSegment empty_chunk [].

(** The [for (col_index ...)] loop of [compare_at]; [fuel] is the number
    of iterations left, [col_index] the current column. *)
Fixpoint compare_at_loop (fuel col_index : nat) (left_cols right_cols : list Column)
    (index_in_chunk index_in_other_chunk : nat)
    (sort_order_flag null_first_flag : list Z) : Z :=
  match fuel with
  | O => 0
  | S fuel' =>
      let left_col := nth col_index left_cols column_default in
      let right_col := nth col_index right_cols column_default in
      let c := Column_compare_at left_col index_in_chunk index_in_other_chunk right_col
                 (nth col_index null_first_flag 0) in
      if negb (Z.eqb c 0) then c * nth col_index sort_order_flag 0
      else compare_at_loop fuel' (S col_index) left_cols right_cols
             index_in_chunk index_in_other_chunk sort_order_flag null_first_flag
  end.

(** [int DataSegment::compare_at(index_in_chunk, other, index_in_other_chunk,
    sort_order_flag, null_first_flag) const] *)
Definition compare_at (self : DataSegment) (index_in_chunk : nat) (other : DataSegment)
    (index_in_other_chunk : nat) (sort_order_flag null_first_flag : list Z) : Z :=
  let col_number := length (order_by_columns self) in
  compare_at_loop col_number 0 (order_by_columns self) (order_by_columns other)
    index_in_chunk index_in_other_chunk sort_order_flag null_first_flag.

(** Raw comparison of column [k] of the two rows, as the loop computes it. *)
Definition raw_compare (self : DataSegment) (i : nat) (other : DataSegment) (j : nat)
    (null_first_flag : list Z) (k : nat) : Z :=
  Column_compare_at (nth k (order_by_columns self) column_default) i j
    (nth k (order_by_columns other) column_default) (nth k null_first_flag 0).

End Segment.

Arguments mkDataSegment {Chunk Column}.
Arguments chunk {Chunk Column}.
Arguments order_by_columns {Chunk Column}.
Arguments clear {Chunk Column}.
Arguments compare_at_loop {Column}.
Arguments compare_at {Chunk Column}.
Arguments raw_compare {Chunk Column}.

(** ** Nullable key columns and sort descriptors *)

(** The kernel never looks inside a chunk; it only asks for its row count
    ([chunk->num_rows()]). *)
Record Chunk := mkChunk { num_rows : nat }.

Definition empty_chunk : Chunk := mkChunk 0.

Section Nullable.
(** [V] is the C++ type of one supported logical type, [V_compare] the
    comparison of two data values of the underlying data column. *)
Variable V : Type.
Variable V_compare : V -> V -> Z.

(** A nullable key column: [None] is a NULL slot. *)
Definition NullableColumn := list (option V).

(** Modelled from the spec: [NullableColumn::compare_at] (column storage,
    not under src/). NULL equals NULL, NULL against a value yields the
    null-direction hint, a value against NULL its opposite, two values are
    compared by the data column. *)
Definition nullable_compare (l r : option V) (nan_direction_hint : Z) : Z :=
  match l, r with
  | None, None => 0
  | None, Some _ => nan_direction_hint
  | Some _, None => - nan_direction_hint
  | Some a, Some b => V_compare a b
  end.

Definition NullableColumn_compare_at (col : NullableColumn) (left right : nat)
    (rhs : NullableColumn) (nan_direction_hint : Z) : Z :=
  nullable_compare (nth left col None) (nth right rhs None) nan_direction_hint.

Definition Segment := DataSegment Chunk NullableColumn.

Definition seg_compare_at (self : Segment) (i : nat) (other : Segment) (j : nat)
    (sort_order_flag null_first_flag : list Z) : Z :=
  compare_at NullableColumn_compare_at [] self i other j
    sort_order_flag null_first_flag.

Definition seg_clear (s : Segment) : Segment := clear empty_chunk s.
End Nullable.

(** Modelled from the spec: [SortDesc] (exec/sorting/sorting.h, not under
    src/), built from the per-key [is_asc_order] and [is_null_first] flags
    of the constructor. The direction flag is +1 or -1; the null flag handed
    to the columns is pre-multiplied by the direction, so that the scaling in
    [compare_at] leaves the place of NULLs to the null-ordering flag alone,
    as the spec's NULL edge cases and its Scenario B (descending,
    nulls first: NULLs come first) require. *)
Record SortDesc := mkSortDescRaw { sort_order : Z; null_first : Z }.

Definition mkSortDesc (asc is_null_first : bool) : SortDesc :=
  let so := if asc then 1 else -1 in
  mkSortDescRaw so ((if is_null_first then -1 else 1) * so).

Definition SortDescs := list SortDesc.

(** A composite sort key: per column, [(is_asc_order, is_null_first)]. *)
Definition sort_descs (key : list (bool * bool)) : SortDescs :=
  map (fun '(asc, nf) => mkSortDesc asc nf) key.

Definition sort_order_flags (d : SortDescs) : list Z := map sort_order d.
Definition null_first_flags (d : SortDescs) : list Z := map null_first d.

(** ** Boundary pruning: [DataSegment::get_filter_array] *)

Definition SMALLER_THAN_MIN_OF_SEGMENT : Z := 2.
Definition INCLUDE_IN_SEGMENT : Z := 1.
Definition LARGER_THAN_MAX_OF_SEGMENT : Z := 0.

Inductive Status := Status_OK | Status_InvalidArgument | Status_InternalError.

Section FilterArray.
Variable V : Type.
Variable V_compare : V -> V -> Z.
Local Abbreviation Segment := (Segment V).
Local Abbreviation cmp := (seg_compare_at V V_compare).

Definition seg_num_rows (s : Segment) : nat := num_rows (chunk s).

(** Modelled from the spec: the shape check of a segment (key columns come
    from [DataSegment::init], not under src/): one key column per sort key,
    each as long as the batch. *)
Definition segment_shape_ok (arity : nat) (s : Segment) : bool :=
  Nat.eqb (length (order_by_columns s)) arity &&
  forallb (fun col => Nat.eqb (length col) (seg_num_rows s)) (order_by_columns s).

Section Passes.
Variable self : Segment.
Variables sof nff : list Z.

(** First pass: compare every row with row [rows_to_sort - 1] of [self];
    [<= 0] gives [INCLUDE_IN_SEGMENT], otherwise [LARGER_THAN_MAX_OF_SEGMENT]. *)
Definition first_pass (rows_to_sort : nat) (s : Segment) : list Z :=
  map (fun j => if cmp s j self (rows_to_sort - 1)%nat sof nff <=? 0
                then INCLUDE_IN_SEGMENT else LARGER_THAN_MAX_OF_SEGMENT)
      (seq 0 (seg_num_rows s)).

(** Second pass over one segment: an [INCLUDE_IN_SEGMENT] row that is
    [< 0] against row 0 of [self] becomes [SMALLER_THAN_MIN_OF_SEGMENT];
    the two counters are incremented on the way. *)
Fixpoint second_pass_rows (s : Segment) (rows : list nat) (flags : list Z)
    (least_num middle_num : nat) : list Z * nat * nat :=
  match rows, flags with
  | j :: rows', f :: flags' =>
      if Z.eqb f INCLUDE_IN_SEGMENT then
        if cmp s j self 0%nat sof nff <? 0 then
          let '(fs, l, m) := second_pass_rows s rows' flags' (S least_num) middle_num in
          (SMALLER_THAN_MIN_OF_SEGMENT :: fs, l, m)
        else
          let '(fs, l, m) := second_pass_rows s rows' flags' least_num (S middle_num) in
          (INCLUDE_IN_SEGMENT :: fs, l, m)
      else
        let '(fs, l, m) := second_pass_rows s rows' flags' least_num middle_num in
        (f :: fs, l, m)
  | _, _ => ([], least_num, middle_num)
  end.

Fixpoint second_pass (segs : list Segment) (flags : list (list Z))
    (least_num middle_num : nat) : list (list Z) * nat * nat :=
  match segs, flags with
  | s :: segs', fl :: flags' =>
      let '(fs, l, m) :=
        second_pass_rows s (seq 0 (seg_num_rows s)) fl least_num middle_num in
      let '(fss, l', m') := second_pass segs' flags' l m in
      (fs :: fss, l', m')
  | _, _ => ([], least_num, middle_num)
  end.
End Passes.

(** Modelled from the spec and from the comment above the declaration
    (chunks_sorter.h, lines 46-52; the body is not under src/):
    [Status get_filter_array(data_segments, rows_to_sort, filter_array,
    sort_order_flags, least_num, middle_num)]. The outputs are returned:
    the status, [filter_array], [least_num] and [middle_num]. A malformed
    segment is reported as a failed status. *)
Definition get_filter_array (self : Segment) (data_segments : list Segment)
    (rows_to_sort : nat) (sort_order_flags' : SortDescs)
    : Status * list (list Z) * nat * nat :=
  let arity := length sort_order_flags' in
  if segment_shape_ok arity self && forallb (segment_shape_ok arity) data_segments then
    let sof := sort_order_flags sort_order_flags' in
    let nff := null_first_flags sort_order_flags' in
    let filter1 := map (first_pass self sof nff rows_to_sort) data_segments in
    let '(filter_array, least_num, middle_num) :=
      second_pass self sof nff data_segments filter1 0 0 in
    (Status_OK, filter_array, least_num, middle_num)
  else (Status_InvalidArgument, [], 0%nat, 0%nat).
End FilterArray.

(** ** Rows seen so far, and the full sort the pruning must agree with *)

Section Rows.
Variable V : Type.
Variable V_compare : V -> V -> Z.
Local Abbreviation Segment := (Segment V).

(** A row is a segment together with a row index in it. *)
Definition Row := (Segment * nat)%type.

Definition segment_rows (s : Segment) : list Row :=
  map (fun j => (s, j)) (seq 0 (seg_num_rows V s)).

(** The composite comparator on rows: [compare_at] with the flags of the
    sort descriptors. *)
Definition row_compare (d : SortDescs) (p q : Row) : Z :=
  seg_compare_at V V_compare (fst p) (snd p) (fst q) (snd q)
    (sort_order_flags d) (null_first_flags d).

Definition row_le (d : SortDescs) (p q : Row) : Prop := row_compare d p q <= 0.

(** All rows seen so far: the reference segment, then every candidate. *)
Definition all_rows (self : Segment) (segs : list Segment) : list Row :=
  segment_rows self ++ concat (map segment_rows segs).

(** The rows of one candidate segment that the filter array keeps. *)
Definition kept_rows (s : Segment) (flags : list Z) : list Row :=
  map fst (filter (fun pf => negb (Z.eqb (snd pf) LARGER_THAN_MAX_OF_SEGMENT))
             (combine (segment_rows s) flags)).

(** The rows left after discarding every [exclude] verdict. *)
Definition retained_rows (self : Segment) (segs : list Segment)
    (filter_array : list (list Z)) : list Row :=
  segment_rows self ++ concat (map (fun sf => kept_rows (fst sf) (snd sf))
                                   (combine segs filter_array)).

(** Modelled from the spec ("fully sorting all rows seen so far"): a
    stable insertion sort under the composite comparator, rows taken in
    arrival order. *)
Fixpoint insert_row (d : SortDescs) (x : Row) (t : list Row) : list Row :=
  match t with
  | [] => [x]
  | y :: t' => if row_compare d x y <? 0 then x :: t else y :: insert_row d x t'
  end.

Definition full_sort (d : SortDescs) (l : list Row) : list Row :=
  fold_left (fun t x => insert_row d x t) l [].
End Rows.

(** Integer key values, compared as the fixed-length data columns do. *)
Definition int_compare (a b : Z) : Z :=
  match Z.compare a b with Lt => -1 | Eq => 0 | Gt => 1 end.

(** A segment of nullable integer key columns over a chunk of [n] rows. *)
Definition int_segment (n : nat) (cols : list (list (option Z))) : Segment Z :=
  mkDataSegment (mkChunk n) cols.

(** The key value stored at column [c], row [i] of a segment. *)
Definition cell {V : Type} (s : Segment V) (c i : nat) : option V :=
  nth i (nth c (order_by_columns s) []) None.

(** Sample segments: a reference segment holding the current top three keys
    [1; 4; 5], and two candidate batches, one of them with a NULL key. *)
Definition ex_ref : Segment Z := int_segment 3 [[Some 1; Some 4; Some 5]].
Definition ex_c1 : Segment Z := int_segment 2 [[Some 2; Some 3]].
Definition ex_c2 : Segment Z := int_segment 4 [[Some 9; None; Some 0; Some 4]].

(** A one-row segment with a NULL key, and one with the key [7]. *)
Definition ex_null : Segment Z := int_segment 1 [[None]].
Definition ex_seven : Segment Z := int_segment 1 [[Some 7]].

(** ** Runtime filters *)

Section RuntimeFilter.
Variable T : Type.

(** Modelled from the spec: the value range of a [RuntimeBloomFilter]
    (the bloom filter's own representation is external). A filter keeps a
    lower and an upper bound; [None] stands for the limit of the type,
    which is where [create_with_range] starts from. *)
Record RuntimeBloomFilter := mkRuntimeBloomFilter { rf_min : option T; rf_max : option T }.

Definition full_range_filter : RuntimeBloomFilter := mkRuntimeBloomFilter None None.

(** Modelled from the spec: [create_with_range<is_min>(pool, val)] makes a
    full-range filter and sets its lower bound ([is_min]) or its upper
    bound to [val]. *)
Definition create_with_range (is_min : bool) (val : T) : RuntimeBloomFilter :=
  if is_min then mkRuntimeBloomFilter (Some val) (rf_max full_range_filter)
  else mkRuntimeBloomFilter (rf_min full_range_filter) (Some val).

(** Modelled from the spec: [update_min_max<is_min>(val)] re-derives the
    lower ([is_min]) or upper bound as [val]. *)
Definition update_min_max (is_min : bool) (val : T) (f : RuntimeBloomFilter) : RuntimeBloomFilter :=
  if is_min then mkRuntimeBloomFilter (Some val) (rf_max f)
  else mkRuntimeBloomFilter (rf_min f) (Some val).

(** Modelled from the spec: a value passes the filter when it lies between
    the bounds, both inclusive, under the type's order [le]. *)
Definition filter_accepts (le : T -> T -> bool) (f : RuntimeBloomFilter) (v : T) : bool :=
  match rf_min f with None => true | Some m => le m v end &&
  match rf_max f with None => true | Some m => le v m end.

(** A column as [ColumnHelper::get_data_column] sees it: a plain data
    column, or a nullable column wrapping one. *)
Inductive ColumnPtr :=
| DataColumn (data : list T)
| NullableDataColumn (null_flags : list bool) (data : list T).

Definition get_data_column (column : ColumnPtr) : list T :=
  match column with DataColumn data => data | NullableDataColumn _ data => data end.

(** [detail::SortRuntimeFilterBuilder]; [None] when [rid] is out of range. *)
Definition SortRuntimeFilterBuilder (column : ColumnPtr) (rid : nat) (asc : bool)
    : option RuntimeBloomFilter :=
  match nth_error (get_data_column column) rid with
  | None => None
  | Some data =>
      Some (if asc then create_with_range false data else create_with_range true data)
  end.

(** [detail::SortRuntimeFilterUpdater], returning the updated filter. *)
Definition SortRuntimeFilterUpdater (filter : RuntimeBloomFilter) (column : ColumnPtr)
    (rid : nat) (asc : bool) : option RuntimeBloomFilter :=
  match nth_error (get_data_column column) rid with
  | None => None
  | Some data =>
      Some (if asc then update_min_max false data filter else update_min_max true data filter)
  end.

(** A filter refreshed by the updater at a sequence of boundary rows. *)
Fixpoint apply_filter_updates (filter : RuntimeBloomFilter) (updates : list (ColumnPtr * nat))
    (asc : bool) : option RuntimeBloomFilter :=
  match updates with
  | [] => Some filter
  | (column, rid) :: updates' =>
      match SortRuntimeFilterUpdater filter column rid asc with
      | None => None
      | Some filter' => apply_filter_updates filter' updates' asc
      end
  end.
End RuntimeFilter.

Arguments mkRuntimeBloomFilter {T}.
Arguments rf_min {T}.
Arguments rf_max {T}.
Arguments DataColumn {T}.
Arguments NullableDataColumn {T}.

(** ** Sort engine *)

Section Engine.
Variable V : Type.
Variable V_compare : V -> V -> Z.

(** Modelled from the spec (section 4.3): the phases of a sorter. *)
Inductive Phase := Accumulating | Finishing | Producing | Done.

(** Modelled from the spec (section 4.3): the state of a top-N
    [ChunksSorter]: its sort key, LIMIT and OFFSET, phase, the
    [_is_sink_complete] flag, the retained rows and [_next_output_row]. *)
Record Engine := mkEngine {
  sort_desc : SortDescs;
  limit : nat;
  offset : nat;
  phase : Phase;
  is_sink_complete : bool;
  retained : list (Row V);
  next_output_row : nat }.

Definition init_engine (d : SortDescs) (lim off : nat) : Engine :=
  mkEngine d lim off Accumulating false [] 0.

(** Modelled from the spec: [update] is refused after [finish] or outside
    [Accumulating]; a batch whose key columns do not fit the sort key is
    rejected; otherwise its rows join the retained ones, of which the first
    OFFSET + LIMIT in order are kept. *)
Definition update (st : Engine) (seg : Segment V) : Status * Engine :=
  if is_sink_complete st then (Status_InternalError, st) else
  match phase st with
  | Accumulating =>
      if segment_shape_ok V (length (sort_desc st)) seg then
        (Status_OK,
         mkEngine (sort_desc st) (limit st) (offset st) Accumulating false
           (firstn (offset st + limit st)
              (full_sort V V_compare (sort_desc st) (retained st ++ segment_rows V seg)))
           (next_output_row st))
      else (Status_InvalidArgument, st)
  | _ => (Status_InternalError, st)
  end.

(** Modelled from the spec: [ChunksSorter::finish] returns at once when the
    sink is complete; from [Accumulating] it drops the OFFSET rows, marks
    the sink complete and moves to [Finishing]. *)
Definition finish (st : Engine) : Status * Engine :=
  if is_sink_complete st then (Status_OK, st) else
  match phase st with
  | Accumulating =>
      (Status_OK,
       mkEngine (sort_desc st) (limit st) (offset st) Finishing true
         (skipn (offset st) (retained st)) (next_output_row st))
  | _ => (Status_InternalError, st)
  end.

(** Modelled from the spec: [done] orders the retained rows and moves to
    [Producing]. *)
Definition done (st : Engine) : Status * Engine :=
  match phase st with
  | Finishing =>
      (Status_OK,
       mkEngine (sort_desc st) (limit st) (offset st) Producing (is_sink_complete st)
         (full_sort V V_compare (sort_desc st) (retained st)) 0)
  | _ => (Status_InternalError, st)
  end.

(** Modelled from the spec: [get_next] hands out the next [chunk_size]
    rows and reports end of stream once all are out. *)
Definition get_next (chunk_size : nat) (st : Engine) : Status * list (Row V) * bool * Engine :=
  match phase st with
  | Producing =>
      let out := firstn chunk_size (skipn (next_output_row st) (retained st)) in
      let next := (next_output_row st + length out)%nat in
      let eos := Nat.leb (length (retained st)) next in
      (Status_OK, out, eos,
       mkEngine (sort_desc st) (limit st) (offset st) (if eos then Done else Producing)
         (is_sink_complete st) (retained st) next)
  | Done => (Status_OK, [], true, st)
  | _ => (Status_InternalError, [], false, st)
  end.

(** Modelled from the spec: [get_sorted_runs] returns the retained rows as
    one sorted run. *)
Definition get_sorted_runs (st : Engine) : Status * list (list (Row V)) :=
  match phase st with
  | Producing | Done => (Status_OK, [retained st])
  | _ => (Status_InternalError, [])
  end.

Inductive EngineOp :=
| OpUpdate (seg : Segment V)
| OpFinish
| OpDone
| OpGetNext (chunk_size : nat)
| OpGetSortedRuns.

(** What a caller observes of one call: its status, the rows handed out
    (as runs) and the end-of-stream flag. *)
Definition Observation : Type := (Status * list (list (Row V)) * bool)%type.

Definition step (st : Engine) (op : EngineOp) : Observation * Engine :=
  match op with
  | OpUpdate seg => let '(s, st') := update st seg in ((s, [], false), st')
  | OpFinish => let '(s, st') := finish st in ((s, [], false), st')
  | OpDone => let '(s, st') := done st in ((s, [], false), st')
  | OpGetNext n => let '(s, out, eos, st') := get_next n st in ((s, [out], eos), st')
  | OpGetSortedRuns => let '(s, runs) := get_sorted_runs st in ((s, runs, false), st)
  end.

Fixpoint run_ops (st : Engine) (ops : list EngineOp) : list Observation :=
  match ops with
  | [] => []
  | op :: ops' => fst (step st op) :: run_ops (snd (step st op)) ops'
  end.

(** The states a caller can drive a fresh sorter to. *)
Inductive reachable (d : SortDescs) (lim off : nat) : Engine -> Prop :=
| reachable_init : reachable d lim off (init_engine d lim off)
| reachable_step : forall st op, reachable d lim off st ->
    reachable d lim off (snd (step st op)).
End Engine.

Arguments mkEngine {V}.
Arguments sort_desc {V}.
Arguments limit {V}.
Arguments offset {V}.
Arguments phase {V}.
Arguments is_sink_complete {V}.
Arguments retained {V}.
Arguments next_output_row {V}.
Arguments init_engine {V}.
Arguments OpUpdate {V}.
Arguments OpFinish {V}.
Arguments OpDone {V}.
Arguments OpGetNext {V}.
Arguments OpGetSortedRuns {V}.

(** * Proofs *)

(** ** Three-way comparators read through signs *)

Section SignComparator.
(** A three-way comparator read through the sign of its result, on the
    elements of [A] that satisfy [dom]. *)
Variable A : Type.
Variable dom : A -> Prop.
Variable f : A -> A -> Z.
Hypothesis f_anti : forall a b, dom a -> dom b -> f b a = - f a b.
Hypothesis f_trans : forall a b c, dom a -> dom b -> dom c ->
  f a b <= 0 -> f b c <= 0 -> f a c <= 0.

Lemma sign_refl : forall a, dom a -> f a a = 0.
Proof. intros a Ha. pose proof (f_anti a a Ha Ha). lia. Qed.

Section Three.
Variables a b c : A.
Hypotheses (Ha : dom a) (Hb : dom b) (Hc : dom c).

Lemma sign_lt_le : f a b < 0 -> f b c <= 0 -> f a c < 0.
Proof.
  intros H1 H2. destruct (Z_lt_le_dec (f a c) 0) as [H|H]; [exact H|].
  assert (f c a <= 0) as H3 by (rewrite f_anti; auto; lia).
  pose proof (f_trans b c a Hb Hc Ha H2 H3) as H4.
  pose proof (f_anti a b Ha Hb). lia.
Qed.

Lemma sign_le_lt : f a b <= 0 -> f b c < 0 -> f a c < 0.
Proof.
  intros H1 H2. destruct (Z_lt_le_dec (f a c) 0) as [H|H]; [exact H|].
  assert (f c a <= 0) as H3 by (rewrite f_anti; auto; lia).
  pose proof (f_trans c a b Hc Ha Hb H3 H1) as H4.
  pose proof (f_anti b c Hb Hc). lia.
Qed.

Lemma sign_ge_trans : 0 <= f a b -> 0 <= f b c -> 0 <= f a c.
Proof.
  intros H1 H2.
  pose proof (f_anti a b Ha Hb). pose proof (f_anti b c Hb Hc).
  pose proof (f_anti a c Ha Hc).
  pose proof (f_trans c b a Hc Hb Ha ltac:(lia) ltac:(lia)). lia.
Qed.

Lemma sign_gt_ge : 0 < f a b -> 0 <= f b c -> 0 < f a c.
Proof.
  intros H1 H2.
  pose proof (f_anti a b Ha Hb). pose proof (f_anti b c Hb Hc).
  pose proof (f_anti a c Ha Hc).
  destruct (Z_lt_le_dec 0 (f a c)) as [Hx|Hx]; [exact Hx|].
  pose proof (f_trans a c b Ha Hc Hb ltac:(lia) ltac:(lia)). lia.
Qed.

Lemma sign_ge_gt : 0 <= f a b -> 0 < f b c -> 0 < f a c.
Proof.
  intros H1 H2.
  pose proof (f_anti a b Ha Hb). pose proof (f_anti b c Hb Hc).
  pose proof (f_anti a c Ha Hc).
  destruct (Z_lt_le_dec 0 (f a c)) as [Hx|Hx]; [exact Hx|].
  pose proof (f_trans b a c Hb Ha Hc ltac:(lia) ltac:(lia)). lia.
Qed.
End Three.
End SignComparator.

(** ** The comparator loop *)

Section SegmentFacts.
Variables (Chunk Column : Type) (Column_compare_at : Column -> nat -> nat -> Column -> Z -> Z)
          (column_default : Column) (empty_chunk : Chunk).

Let loop := compare_at_loop Column_compare_at column_default.
Let raw := @raw_compare Chunk Column Column_compare_at column_default.

Lemma compare_at_loop_first_nonzero :
  forall fuel ci (self other : DataSegment Chunk Column) i j sof nff,
    ((forall k, (ci <= k < ci + fuel)%nat -> raw self i other j nff k = 0) ->
      loop fuel ci (order_by_columns self) (order_by_columns other) i j sof nff = 0) /\
    (forall k, (ci <= k < ci + fuel)%nat ->
      (forall m, (ci <= m < k)%nat -> raw self i other j nff m = 0) ->
      raw self i other j nff k <> 0 ->
      loop fuel ci (order_by_columns self) (order_by_columns other) i j sof nff
        = raw self i other j nff k * nth k sof 0).
Proof.
  induction fuel as [|fuel IH]; intros ci self other i j sof nff; split.
  - intros _. reflexivity.
  - intros k Hk. lia.
  - intros Hz. unfold loop; simpl. fold loop.
    pose proof (Hz ci ltac:(lia)) as H0. unfold raw, raw_compare in H0.
    rewrite H0. simpl.
    apply (proj1 (IH (S ci) self other i j sof nff)).
    intros k Hk. apply Hz. lia.
  - intros k Hk Hbefore Hnz. unfold loop; simpl. fold loop.
    destruct (Nat.eq_dec k ci) as [->|Hne].
    + unfold raw, raw_compare in Hnz. apply Z.eqb_neq in Hnz. rewrite Hnz. reflexivity.
    + pose proof (Hbefore ci ltac:(lia)) as H0. unfold raw, raw_compare in H0.
      rewrite H0. simpl.
      apply (proj2 (IH (S ci) self other i j sof nff)); [lia| |exact Hnz].
      intros m Hm. apply Hbefore. lia.
Qed.
Lemma compare_at_loop_ext : forall fuel ci A B i j sof nff sof' nff',
    (forall k, (ci <= k < ci + fuel)%nat ->
       Column_compare_at (nth k A column_default) i j (nth k B column_default) (nth k nff 0) =
       Column_compare_at (nth k A column_default) i j (nth k B column_default) (nth k nff' 0) /\
       (Column_compare_at (nth k A column_default) i j (nth k B column_default) (nth k nff 0) <> 0 ->
        nth k sof 0 = nth k sof' 0)) ->
    loop fuel ci A B i j sof nff = loop fuel ci A B i j sof' nff'.
Proof.
  induction fuel as [|fuel IH]; intros ci A B i j sof nff sof' nff' H; [reflexivity|].
  unfold loop; simpl; fold loop.
  destruct (H ci ltac:(lia)) as [E1 E2]. rewrite <- E1.
  destruct (Z.eqb_spec (Column_compare_at (nth ci A column_default) i j
                          (nth ci B column_default) (nth ci nff 0)) 0) as [E|E]; simpl.
  - apply IH. intros k Hk. apply H. lia.
  - rewrite (E2 E). reflexivity.
Qed.

Section LoopOrder.
Variables sof nff : list Z.
Local Abbreviation C k A i B j :=
  (Column_compare_at (nth k A column_default) i j (nth k B column_default) (nth k nff 0)).

Lemma compare_at_loop_anti : forall fuel ci A B i j,
    (forall k, (ci <= k < ci + fuel)%nat -> forall A B i j, C k B j A i = - C k A i B j) ->
    loop fuel ci B A j i sof nff = - loop fuel ci A B i j sof nff.
Proof.
  induction fuel as [|fuel IH]; intros ci A B i j Hanti; [reflexivity|].
  unfold loop; simpl; fold loop.
  rewrite (Hanti ci ltac:(lia) A B i j).
  destruct (Z.eqb_spec (C ci A i B j) 0) as [E|E].
  - rewrite E. simpl. apply IH. intros k Hk. apply Hanti. lia.
  - assert (E' : - C ci A i B j <> 0) by lia.
    apply Z.eqb_neq in E'. rewrite E'. simpl. lia.
Qed.

Lemma compare_at_loop_trans : forall fuel ci A B D i j l,
    (forall k, (ci <= k < ci + fuel)%nat -> forall A B i j, C k B j A i = - C k A i B j) ->
    (forall k, (ci <= k < ci + fuel)%nat -> forall A B D i j l,
        C k A i B j <= 0 -> C k B j D l <= 0 -> C k A i D l <= 0) ->
    (forall k, (ci <= k < ci + fuel)%nat -> nth k sof 0 = 1 \/ nth k sof 0 = -1) ->
    loop fuel ci A B i j sof nff <= 0 -> loop fuel ci B D j l sof nff <= 0 ->
    loop fuel ci A D i l sof nff <= 0.
Proof.
  induction fuel as [|fuel IH]; intros ci A B D i j l Hanti Htrans Hdir H1 H2;
    [simpl; lia|].
  unfold loop in H1, H2 |- *; simpl in H1, H2 |- *; fold loop in H1, H2 |- *.
  set (f := fun p q : list Column * nat => C ci (fst p) (snd p) (fst q) (snd q)).
  set (T := fun _ : list Column * nat => True).
  assert (fa : forall a b, T a -> T b -> f b a = - f a b)
    by (intros [] [] _ _; unfold f; simpl; apply (Hanti ci); lia).
  assert (ft : forall a b c, T a -> T b -> T c -> f a b <= 0 -> f b c <= 0 -> f a c <= 0)
    by (intros [] [] [] _ _ _; unfold f; simpl; apply (Htrans ci); lia).
  pose proof (sign_lt_le _ T f fa ft (A,i) (B,j) (D,l) I I I) as L1.
  pose proof (sign_le_lt _ T f fa ft (A,i) (B,j) (D,l) I I I) as L2.
  pose proof (sign_ge_trans _ T f fa ft (A,i) (B,j) (D,l) I I I) as L3.
  pose proof (sign_gt_ge _ T f fa ft (A,i) (B,j) (D,l) I I I) as L4.
  pose proof (sign_ge_gt _ T f fa ft (A,i) (B,j) (D,l) I I I) as L5.
  pose proof (ft (A,i) (B,j) (D,l) I I I) as L6.
  unfold f in L1, L2, L3, L4, L5, L6; simpl in L1, L2, L3, L4, L5, L6.
  destruct (Hdir ci ltac:(lia)) as [Hd|Hd]; rewrite Hd in *;
  destruct (Z.eqb_spec (C ci A i B j) 0) as [E1|E1];
  destruct (Z.eqb_spec (C ci B j D l) 0) as [E2|E2];
  destruct (Z.eqb_spec (C ci A i D l) 0) as [E3|E3]; simpl in H1, H2 |- *; try lia;
  (eapply IH; [intros k Hk; apply Hanti; lia | intros k Hk; apply Htrans; lia
              | intros k Hk; apply Hdir; lia | exact H1 | exact H2]).
Qed.
End LoopOrder.
End SegmentFacts.


Section NullableFacts.
Variable V : Type.
Variable V_compare : V -> V -> Z.
Hypothesis V_anti : forall a b, V_compare b a = - V_compare a b.
Hypothesis V_trans : forall a b c, V_compare a b <= 0 -> V_compare b c <= 0 -> V_compare a c <= 0.

Lemma nullable_compare_anti : forall h l r,
    nullable_compare V V_compare r l h = - nullable_compare V V_compare l r h.
Proof. intros h [a|] [b|]; simpl; try lia. apply V_anti. Qed.

Lemma nullable_compare_trans : forall h a b c, h = 1 \/ h = -1 ->
    nullable_compare V V_compare a b h <= 0 -> nullable_compare V V_compare b c h <= 0 ->
    nullable_compare V V_compare a c h <= 0.
Proof.
  intros h [a|] [b|] [c|] Hh; simpl; try lia. apply V_trans.
Qed.
End NullableFacts.

(** C3: [compare_at] is lexicographic and short-circuiting. If every sort
    column compares equal the result is 0; otherwise the first column (in
    declared order) whose raw comparison is non-zero decides, its raw result
    multiplied by that column's direction flag. *)
Theorem compare_at_lexicographic :
  forall (Chunk Column : Type) (Column_compare_at : Column -> nat -> nat -> Column -> Z -> Z)
         (column_default : Column) (self other : DataSegment Chunk Column)
         (index_in_chunk index_in_other_chunk : nat) (sort_order_flag null_first_flag : list Z),
    let n := length (order_by_columns self) in
    let raw := raw_compare Column_compare_at column_default self index_in_chunk other
                 index_in_other_chunk null_first_flag in
    ((forall k, (k < n)%nat -> raw k = 0) ->
       compare_at Column_compare_at column_default self index_in_chunk other
         index_in_other_chunk sort_order_flag null_first_flag = 0) /\
    (forall k, (k < n)%nat -> (forall m, (m < k)%nat -> raw m = 0) -> raw k <> 0 ->
       compare_at Column_compare_at column_default self index_in_chunk other
         index_in_other_chunk sort_order_flag null_first_flag = raw k * nth k sort_order_flag 0).
Proof.
  intros Chunk Column cc d self other i j sof nff n raw.
  pose proof (compare_at_loop_first_nonzero Chunk Column cc d n 0 self other i j sof nff)
    as [H1 H2].
  split.
  - intros Hz. apply H1. intros k Hk. apply Hz. lia.
  - intros k Hk Hb Hnz. apply H2; [lia| |exact Hnz]. intros m Hm. apply Hb. lia.
Qed.

(** C10: with no order-by columns (for instance after [clear()]),
    [compare_at] is 0 for every pair of rows; and [compare_at] reads only
    the key columns of both segments, never their chunks. *)
Theorem compare_at_without_columns :
  forall (Chunk Column : Type) (Column_compare_at : Column -> nat -> nat -> Column -> Z -> Z)
         (column_default : Column) (empty_chunk : Chunk),
    (forall (self other : DataSegment Chunk Column) i j sof nff,
        order_by_columns self = [] ->
        compare_at Column_compare_at column_default self i other j sof nff = 0) /\
    (forall (self other : DataSegment Chunk Column) i j sof nff,
        compare_at Column_compare_at column_default (clear empty_chunk self) i other j sof nff = 0) /\
    (forall (self self' other other' : DataSegment Chunk Column) i j sof nff,
        order_by_columns self = order_by_columns self' ->
        order_by_columns other = order_by_columns other' ->
        compare_at Column_compare_at column_default self i other j sof nff =
        compare_at Column_compare_at column_default self' i other' j sof nff).
Proof.
  intros Chunk Column cc d e. split; [|split].
  - intros self other i j sof nff H. unfold compare_at. rewrite H. reflexivity.
  - intros self other i j sof nff. reflexivity.
  - intros self self' other other' i j sof nff H1 H2. unfold compare_at.
    rewrite H1, H2. reflexivity.
Qed.

(** ** Sort descriptors and NULL placement *)

Lemma sort_flags_nth : forall key c, (c < length key)%nat ->
    nth c (sort_order_flags (sort_descs key)) 0 = (if fst (nth c key (true, true)) then 1 else -1) /\
    nth c (null_first_flags (sort_descs key)) 0 =
      (if snd (nth c key (true, true)) then -1 else 1) *
      (if fst (nth c key (true, true)) then 1 else -1).
Proof.
  induction key as [|[asc nf] key IH]; intros c Hc; simpl in Hc; [lia|].
  destruct c as [|c].
  - simpl. split; reflexivity.
  - simpl. apply IH. lia.
Qed.

Lemma sort_flags_length : forall key,
    length (sort_order_flags (sort_descs key)) = length key /\
    length (null_first_flags (sort_descs key)) = length key.
Proof.
  intros key. unfold sort_order_flags, null_first_flags, sort_descs.
  rewrite !length_map. split; reflexivity.
Qed.

Lemma sort_flags_unit : forall key c, (c < length key)%nat ->
    (nth c (sort_order_flags (sort_descs key)) 0 = 1 \/
     nth c (sort_order_flags (sort_descs key)) 0 = -1) /\
    (nth c (null_first_flags (sort_descs key)) 0 = 1 \/
     nth c (null_first_flags (sort_descs key)) 0 = -1).
Proof.
  intros key c Hc. destruct (sort_flags_nth key c Hc) as [-> ->].
  destruct (nth c key (true, true)) as [[|] [|]]; simpl; lia.
Qed.

(** C4: NULL handling. Given equal leading columns, a NULL at column [c]
    against a value precedes it ([< 0]) when the column is nulls-first and
    follows it ([> 0]) when nulls-last, whatever the direction; NULL against
    NULL is equal at that column, and the result does not change when the
    direction flag of that column is changed. *)
Theorem null_ordering :
  forall (V : Type) (V_compare : V -> V -> Z) (key : list (bool * bool))
         (self other : Segment V) (i j c : nat),
    length (order_by_columns self) = length key ->
    (c < length key)%nat ->
    (forall m, (m < c)%nat ->
       raw_compare (NullableColumn_compare_at V V_compare) [] self i other j
         (null_first_flags (sort_descs key)) m = 0) ->
    let r key' := seg_compare_at V V_compare self i other j
                    (sort_order_flags (sort_descs key')) (null_first_flags (sort_descs key')) in
    (cell self c i = None -> forall v, cell other c j = Some v ->
       (snd (nth c key (true, true)) = true -> r key < 0) /\
       (snd (nth c key (true, true)) = false -> r key > 0)) /\
    (cell self c i = None -> cell other c j = None ->
       raw_compare (NullableColumn_compare_at V V_compare) [] self i other j
         (null_first_flags (sort_descs key)) c = 0 /\
       forall key', length key' = length key ->
         (forall m, m <> c -> nth m key' (true, true) = nth m key (true, true)) ->
         snd (nth c key' (true, true)) = snd (nth c key (true, true)) ->
         r key' = r key).
Proof.
  intros V Vc key self other i j c Hlen Hc Hbefore r. split.
  - intros Hn v Hv.
    destruct (sort_flags_nth key c Hc) as [Hso Hnf].
    assert (Hraw : raw_compare (NullableColumn_compare_at V Vc) [] self i other j
                     (null_first_flags (sort_descs key)) c =
                   nth c (null_first_flags (sort_descs key)) 0).
    { unfold raw_compare, NullableColumn_compare_at. unfold cell in Hn, Hv.
      rewrite Hn, Hv. reflexivity. }
    pose proof (compare_at_loop_first_nonzero Chunk (NullableColumn V)
                  (NullableColumn_compare_at V Vc) [] (length (order_by_columns self)) 0
                  self other i j (sort_order_flags (sort_descs key))
                  (null_first_flags (sort_descs key))) as [_ H2].
    assert (Hr : r key = nth c (null_first_flags (sort_descs key)) 0 *
                         nth c (sort_order_flags (sort_descs key)) 0).
    { unfold r, seg_compare_at, compare_at. rewrite <- Hraw. apply H2.
      - lia.
      - intros m Hm. apply Hbefore. lia.
      - rewrite Hraw, Hnf. destruct (nth c key (true, true)) as [[|] [|]]; simpl; lia. }
    rewrite Hr, Hso, Hnf.
    destruct (nth c key (true, true)) as [[|] [|]]; simpl; split; intros; try discriminate; lia.
  - intros Hn1 Hn2. split.
    + unfold raw_compare, NullableColumn_compare_at. unfold cell in Hn1, Hn2.
      rewrite Hn1, Hn2. reflexivity.
    + intros key' Hlen' Hother Hnf.
      unfold r, seg_compare_at, compare_at. apply compare_at_loop_ext.
      intros k Hk. simpl in Hk.
      destruct (Nat.eq_dec k c) as [->|Hne].
      * unfold NullableColumn_compare_at. unfold cell in Hn1, Hn2.
        rewrite Hn1, Hn2. simpl. split; [reflexivity|intros E; lia].
      * destruct (sort_flags_nth key k ltac:(lia)) as [Hso Hnf1].
        destruct (sort_flags_nth key' k ltac:(lia)) as [Hso' Hnf1'].
        rewrite Hso, Hso', Hnf1, Hnf1', (Hother k Hne). split; reflexivity.
Qed.

(** ** Small list facts *)

Lemma nth_map_seq : forall (A : Type) (f : nat -> A) n j d, (j < n)%nat ->
    nth j (map f (seq 0 n)) d = f j.
Proof.
  intros A f n j d Hj.
  rewrite (nth_indep _ d (f 0%nat)) by (rewrite length_map, length_seq; exact Hj).
  rewrite map_nth, seq_nth by exact Hj. reflexivity.
Qed.

(** ** The two passes of [get_filter_array] *)

Section FilterArrayFacts.
Variable V : Type.
Variable V_compare : V -> V -> Z.
Variable self : Segment V.
Variables sof nff : list Z.
Variable rows_to_sort : nat.

Local Abbreviation cmp := (seg_compare_at V V_compare).

Local Abbreviation first_flag s j :=
(if cmp s j self (rows_to_sort - 1)%nat sof nff <=? 0
 then INCLUDE_IN_SEGMENT else LARGER_THAN_MAX_OF_SEGMENT).

Local Abbreviation verdict s j :=
(if cmp s j self (rows_to_sort - 1)%nat sof nff <=? 0 then
   if cmp s j self 0%nat sof nff <? 0 then SMALLER_THAN_MIN_OF_SEGMENT else INCLUDE_IN_SEGMENT
 else LARGER_THAN_MAX_OF_SEGMENT).

Lemma second_pass_rows_spec : forall s rows least_num middle_num,
  second_pass_rows V V_compare self sof nff s rows (map (fun j => first_flag s j) rows)
    least_num middle_num =
  (map (fun j => verdict s j) rows,
   (least_num + count_occ Z.eq_dec (map (fun j => verdict s j) rows) SMALLER_THAN_MIN_OF_SEGMENT)%nat,
   (middle_num + count_occ Z.eq_dec (map (fun j => verdict s j) rows) INCLUDE_IN_SEGMENT)%nat).
Proof.
intros s rows. induction rows as [|j rows IH]; intros l m; simpl.
- rewrite !Nat.add_0_r. reflexivity.
- destruct (cmp s j self (rows_to_sort - 1)%nat sof nff <=? 0); simpl;
    [destruct (cmp s j self 0%nat sof nff <? 0); simpl|]; rewrite IH;
    unfold SMALLER_THAN_MIN_OF_SEGMENT, INCLUDE_IN_SEGMENT, LARGER_THAN_MAX_OF_SEGMENT;
    simpl; repeat f_equal; lia.
Qed.

Lemma second_pass_spec : forall segs least_num middle_num,
  let fa := map (fun s => map (fun j => verdict s j) (seq 0 (seg_num_rows V s))) segs in
  second_pass V V_compare self sof nff segs
    (map (first_pass V V_compare self sof nff rows_to_sort) segs) least_num middle_num =
  (fa,
   (least_num + count_occ Z.eq_dec (concat fa) SMALLER_THAN_MIN_OF_SEGMENT)%nat,
   (middle_num + count_occ Z.eq_dec (concat fa) INCLUDE_IN_SEGMENT)%nat).
Proof.
intros segs. induction segs as [|s segs IH]; intros l m fa; simpl.
- rewrite !Nat.add_0_r. reflexivity.
- unfold first_pass. rewrite second_pass_rows_spec. rewrite IH.
  unfold fa; simpl. rewrite !count_occ_app. f_equal; [f_equal|]; lia.
Qed.
End FilterArrayFacts.

Lemma get_filter_array_spec :
  forall (V : Type) (V_compare : V -> V -> Z) (self : Segment V) (segs : list (Segment V))
         (rows_to_sort : nat) (descs : SortDescs) fa least_num middle_num,
    get_filter_array V V_compare self segs rows_to_sort descs =
      (Status_OK, fa, least_num, middle_num) ->
    let sof := sort_order_flags descs in
    let nff := null_first_flags descs in
    let cmp := seg_compare_at V V_compare in
    segment_shape_ok V (length descs) self = true /\
    forallb (segment_shape_ok V (length descs)) segs = true /\
    fa = map (fun s => map (fun j =>
           if cmp s j self (rows_to_sort - 1)%nat sof nff <=? 0 then
             if cmp s j self 0%nat sof nff <? 0 then SMALLER_THAN_MIN_OF_SEGMENT
             else INCLUDE_IN_SEGMENT
           else LARGER_THAN_MAX_OF_SEGMENT) (seq 0 (seg_num_rows V s))) segs /\
    least_num = count_occ Z.eq_dec (concat fa) SMALLER_THAN_MIN_OF_SEGMENT /\
    middle_num = count_occ Z.eq_dec (concat fa) INCLUDE_IN_SEGMENT.
Proof.
  intros V Vc self segs K descs fa l m H sof nff cmp.
  unfold get_filter_array in H.
  destruct (segment_shape_ok V (length descs) self) eqn:E1; [|discriminate].
  destruct (forallb (segment_shape_ok V (length descs)) segs) eqn:E2; [|discriminate].
  simpl in H. rewrite second_pass_spec in H. injection H as <- <- <-.
  repeat split; reflexivity.
Qed.

(** C2: the two passes of [get_filter_array]. On a successful call, every
    row [j] of every candidate segment [s] is first compared with row
    [rows_to_sort - 1] of the reference segment: exactly the rows that
    compare [> 0] (worse) get [LARGER_THAN_MAX_OF_SEGMENT], the others
    [INCLUDE_IN_SEGMENT]. Among the latter, exactly the rows that compare
    [< 0] (strictly better) against row 0 end as [SMALLER_THAN_MIN_OF_SEGMENT]. *)
Theorem filter_array_two_pass :
  forall (V : Type) (V_compare : V -> V -> Z) (self : Segment V) (segs : list (Segment V))
         (rows_to_sort : nat) (descs : SortDescs) filter_array least_num middle_num,
    (0 < rows_to_sort <= seg_num_rows V self)%nat ->
    get_filter_array V V_compare self segs rows_to_sort descs =
      (Status_OK, filter_array, least_num, middle_num) ->
    let sof := sort_order_flags descs in
    let nff := null_first_flags descs in
    let anchor s j := seg_compare_at V V_compare s j self (rows_to_sort - 1)%nat sof nff in
    let first s j := seg_compare_at V V_compare s j self 0%nat sof nff in
    length filter_array = length segs /\
    forall k s, nth_error segs k = Some s ->
      (forall j, (j < seg_num_rows V s)%nat ->
         (nth j (first_pass V V_compare self sof nff rows_to_sort s) 0 = LARGER_THAN_MAX_OF_SEGMENT
            <-> anchor s j > 0) /\
         (nth j (first_pass V V_compare self sof nff rows_to_sort s) 0 = INCLUDE_IN_SEGMENT
            <-> anchor s j <= 0)) /\
      exists fl, nth_error filter_array k = Some fl /\ length fl = seg_num_rows V s /\
        forall j, (j < seg_num_rows V s)%nat ->
          (nth j fl 0 = LARGER_THAN_MAX_OF_SEGMENT <-> anchor s j > 0) /\
          (nth j fl 0 = SMALLER_THAN_MIN_OF_SEGMENT <-> anchor s j <= 0 /\ first s j < 0) /\
          (nth j fl 0 = INCLUDE_IN_SEGMENT <-> anchor s j <= 0 /\ first s j >= 0).
Proof.
  intros V Vc self segs K descs fa l m _ H sof nff anchor first.
  destruct (get_filter_array_spec V Vc self segs K descs fa l m H) as (_ & _ & Hfa & _ & _).
  subst anchor first sof nff; cbv beta in *.
  split.
  - rewrite Hfa, length_map. reflexivity.
  - intros k s Hk. split.
    + intros j Hj. unfold first_pass.
      rewrite nth_map_seq by exact Hj.
      unfold INCLUDE_IN_SEGMENT, LARGER_THAN_MAX_OF_SEGMENT.
      match goal with |- context [?x <=? 0] => destruct (Z.leb_spec x 0) end;
        split; intros; lia.
    + eexists. split.
      * rewrite Hfa, nth_error_map, Hk. reflexivity.
      * split; [rewrite length_map, length_seq; reflexivity|].
        intros j Hj.
        rewrite nth_map_seq by exact Hj.
        unfold SMALLER_THAN_MIN_OF_SEGMENT, INCLUDE_IN_SEGMENT, LARGER_THAN_MAX_OF_SEGMENT.
        match goal with |- context [?x <=? 0] => destruct (Z.leb_spec x 0) end;
        try match goal with |- context [?x <? 0] => destruct (Z.ltb_spec x 0) end;
          repeat split; intros; try split; try lia.
Qed.

(** C5: on a successful call, [least_num] is the number of rows marked
    [SMALLER_THAN_MIN_OF_SEGMENT] and [middle_num] the number marked
    [INCLUDE_IN_SEGMENT], over all candidate segments. *)
Theorem filter_array_counts :
  forall (V : Type) (V_compare : V -> V -> Z) (self : Segment V) (segs : list (Segment V))
         (rows_to_sort : nat) (descs : SortDescs) filter_array least_num middle_num,
    get_filter_array V V_compare self segs rows_to_sort descs =
      (Status_OK, filter_array, least_num, middle_num) ->
    least_num = count_occ Z.eq_dec (concat filter_array) SMALLER_THAN_MIN_OF_SEGMENT /\
    middle_num = count_occ Z.eq_dec (concat filter_array) INCLUDE_IN_SEGMENT.
Proof.
  intros V Vc self segs K descs fa l m H.
  destruct (get_filter_array_spec V Vc self segs K descs fa l m H) as (_ & _ & _ & H1 & H2).
  split; assumption.
Qed.

(** ** Prefixes and insertion *)

Lemma in_firstn : forall (A : Type) n (l : list A) z, In z (firstn n l) -> In z l.
Proof.
  intros A n l z H. rewrite <- (firstn_skipn n l). apply in_or_app. left. exact H.
Qed.

Lemma in_firstn_mono : forall (A : Type) n m (l : list A) z, (n <= m)%nat ->
    In z (firstn n l) -> In z (firstn m l).
Proof.
  intros A n m l z Hle H.
  rewrite <- (Nat.min_l n m Hle), <- firstn_firstn in H. eapply in_firstn. exact H.
Qed.

Lemma firstn_seq : forall k start n, (k <= n)%nat -> firstn k (seq start n) = seq start k.
Proof.
  induction k as [|k IH]; intros start n Hk; [reflexivity|].
  destruct n as [|n]; [lia|]. simpl. f_equal. apply IH. lia.
Qed.

Section InsertionSort.
Variable V : Type.
Variable V_compare : V -> V -> Z.
Variable d : SortDescs.

Local Abbreviation cmpr := (row_compare V V_compare d).
Local Abbreviation ins := (insert_row V V_compare d).
Local Abbreviation fold l acc := (fold_left (fun t0 x0 => ins x0 t0) l acc).

Lemma insert_row_perm : forall x t, Permutation (ins x t) (x :: t).
Proof.
  intros x t. induction t as [|a t IH]; simpl; [reflexivity|].
  destruct (cmpr x a <? 0); [reflexivity|].
  rewrite IH. apply perm_swap.
Qed.

Lemma fold_insert_perm : forall l t, Permutation (fold l t) (rev l ++ t).
Proof.
  induction l as [|x l IH]; intros t; simpl; [reflexivity|].
  rewrite IH, insert_row_perm, <- app_assoc. reflexivity.
Qed.

Lemma firstn_insert_row_firstn : forall K x t,
    firstn K (ins x t) = firstn K (ins x (firstn K t)).
Proof.
  intros K x t. revert K. induction t as [|a t IH]; intros K.
  - destruct K; reflexivity.
  - destruct K as [|K]; [reflexivity|]. simpl.
    destruct (cmpr x a <? 0).
    + simpl. f_equal. destruct K as [|K]; [reflexivity|].
      change (firstn (S K) (a :: t) = firstn (S K) (a :: firstn (S K) t)).
      rewrite !firstn_cons, firstn_firstn. f_equal. f_equal. lia.
    + simpl. f_equal. apply IH.
Qed.

Lemma firstn_insert_row_in : forall K x t z, (K <= length t)%nat ->
    In z (firstn K (ins x t)) ->
    In z (firstn K t) \/ (z = x /\ exists a, In a (firstn K t) /\ cmpr x a < 0).
Proof.
  intros K x t. revert K. induction t as [|a t IH]; intros K z HK Hin.
  - simpl in HK. assert (K = 0%nat) by lia. subst. destruct Hin.
  - destruct K as [|K]; [destruct Hin|]. simpl in Hin, HK.
    destruct (Z.ltb_spec (cmpr x a) 0) as [Hlt|Hge].
    + simpl in Hin. destruct Hin as [<-|Hin].
      * right. split; [reflexivity|]. exists a. split; [left; reflexivity|exact Hlt].
      * left. eapply in_firstn_mono; [|exact Hin]. lia.
    + simpl in Hin. destruct Hin as [<-|Hin]; [left; left; reflexivity|].
      destruct (IH K z ltac:(lia) Hin) as [H|(Hz & a' & Ha' & Hc)].
      * left. right. exact H.
      * right. split; [exact Hz|]. exists a'. split; [right; exact Ha'|exact Hc].
Qed.

Lemma firstn_insert_row_past : forall K x t, (K <= length t)%nat ->
    (forall a, In a (firstn K t) -> cmpr x a >= 0) ->
    firstn K (ins x t) = firstn K t.
Proof.
  intros K x t. revert K. induction t as [|a t IH]; intros K HK Hge.
  - simpl in HK. assert (K = 0%nat) by lia. subst. reflexivity.
  - destruct K as [|K]; [reflexivity|]. simpl in HK |- *.
    destruct (Z.ltb_spec (cmpr x a) 0) as [Hlt|_].
    + pose proof (Hge a (or_introl eq_refl)). lia.
    + simpl. f_equal. apply IH; [lia|]. intros a' Ha'. apply Hge. right. exact Ha'.
Qed.

Lemma fold_insert_congr : forall K l t1 t2, firstn K t1 = firstn K t2 ->
    firstn K (fold l t1) = firstn K (fold l t2).
Proof.
  intros K l. induction l as [|x l IH]; intros t1 t2 H; simpl; [exact H|].
  apply IH. rewrite firstn_insert_row_firstn, H, <- firstn_insert_row_firstn. reflexivity.
Qed.
End InsertionSort.

(** ** The composite comparator on rows is a total preorder *)

Section RowOrder.
Variable V : Type.
Variable V_compare : V -> V -> Z.
Hypothesis V_anti : forall a b, V_compare b a = - V_compare a b.
Hypothesis V_trans : forall a b c, V_compare a b <= 0 -> V_compare b c <= 0 -> V_compare a c <= 0.
Variable key : list (bool * bool).

Local Abbreviation cmpr := (row_compare V V_compare (sort_descs key)).

(** A row of a segment with one key column per sort key. *)
Local Abbreviation ws p := (length (order_by_columns (fst p)) = length key).

Lemma row_compare_anti : forall p q : Row V, ws p -> ws q -> cmpr q p = - cmpr p q.
Proof.
  intros [s i] [t j] Hp Hq. simpl in Hp, Hq.
  unfold row_compare, seg_compare_at, compare_at; simpl. rewrite Hp, Hq.
  apply compare_at_loop_anti. intros k _ A B i' j'.
  unfold NullableColumn_compare_at. apply nullable_compare_anti. exact V_anti.
Qed.

Lemma row_compare_trans : forall p q r : Row V, ws p -> ws q -> ws r ->
    cmpr p q <= 0 -> cmpr q r <= 0 -> cmpr p r <= 0.
Proof.
  intros [s i] [t j] [u l] Hp Hq Hr. simpl in Hp, Hq, Hr.
  unfold row_compare, seg_compare_at, compare_at; simpl. rewrite Hp, Hq.
  intros H1 H2. eapply compare_at_loop_trans; [| | |exact H1|exact H2].
  - intros k _ A B i' j'. unfold NullableColumn_compare_at.
    apply nullable_compare_anti. exact V_anti.
  - intros k Hk A B D i' j' l'. unfold NullableColumn_compare_at.
    apply nullable_compare_trans; [exact V_trans|].
    apply (sort_flags_unit key k). lia.
  - intros k Hk. apply (sort_flags_unit key k). lia.
Qed.

Lemma row_compare_refl : forall p : Row V, ws p -> cmpr p p = 0.
Proof. intros p Hp. pose proof (row_compare_anti p p Hp Hp). lia. Qed.

Lemma row_lt_le : forall p q r : Row V, ws p -> ws q -> ws r ->
    cmpr p q < 0 -> cmpr q r <= 0 -> cmpr p r < 0.
Proof.
  intros p q r Hp Hq Hr.
  exact (sign_lt_le (Row V) (fun p => ws p) cmpr row_compare_anti row_compare_trans p q r Hp Hq Hr).
Qed.

Lemma row_le_lt : forall p q r : Row V, ws p -> ws q -> ws r ->
    cmpr p q <= 0 -> cmpr q r < 0 -> cmpr p r < 0.
Proof.
  intros p q r Hp Hq Hr.
  exact (sign_le_lt (Row V) (fun p => ws p) cmpr row_compare_anti row_compare_trans p q r Hp Hq Hr).
Qed.

(** [Sorted] gives every later row, for rows of well-formed segments. *)
Lemma sorted_strongly : forall l : list (Row V), Forall (fun p => ws p) l ->
    Sorted (row_le V V_compare (sort_descs key)) l ->
    StronglySorted (row_le V V_compare (sort_descs key)) l.
Proof.
  induction l as [|a l IH]; intros Hws Hs; [constructor|].
  inversion Hws as [|? ? Ha Hl]; subst. apply Sorted_inv in Hs as [Hs Hhd].
  constructor; [apply IH; assumption|].
  destruct l as [|b l]; [constructor|].
  inversion Hhd as [|? ? Hab]; subst.
  pose proof (IH Hl Hs) as Hss. apply StronglySorted_inv in Hss as [_ Hb].
  inversion Hl as [|? ? Hbw Hlw]; subst.
  constructor; [exact Hab|].
  rewrite Forall_forall in Hb, Hlw |- *. intros c Hc.
  unfold row_le in *. apply (row_compare_trans a b c); auto.
Qed.

Lemma strongly_sorted_after : forall (R : Row V -> Row V -> Prop) l1 x l2,
    StronglySorted R (l1 ++ x :: l2) -> Forall (R x) l2.
Proof.
  intros R l1. induction l1 as [|a l1 IH]; intros x l2 H; simpl in H.
  - apply StronglySorted_inv in H. apply H.
  - apply StronglySorted_inv in H as [H _]. apply (IH x l2 H).
Qed.
End RowOrder.

(** ** Boundary pruning against the full sort *)

Lemma perm_filter_length : forall (A : Type) (f : A -> bool) l1 l2,
    Permutation l1 l2 -> length (filter f l1) = length (filter f l2).
Proof.
  intros A f l1 l2 H. induction H; simpl.
  - reflexivity.
  - destruct (f x); simpl; lia.
  - destruct (f x), (f y); simpl; lia.
  - lia.
Qed.

Lemma length_filter_le : forall (A : Type) (f : A -> bool) l,
    (length (filter f l) <= length l)%nat.
Proof.
  intros A f l. induction l as [|a l IH]; simpl; [lia|]. destruct (f a); simpl; lia.
Qed.

Lemma filter_none : forall (A : Type) (f : A -> bool) l,
    (forall z, In z l -> f z = false) -> filter f l = [].
Proof.
  intros A f l. induction l as [|a l IH]; intros H; simpl; [reflexivity|].
  rewrite (H a (or_introl eq_refl)). apply IH. intros z Hz. apply H. right. exact Hz.
Qed.

Lemma combine_map_self : forall (A B : Type) (f : A -> B) l,
    combine l (map f l) = map (fun x => (x, f x)) l.
Proof. intros A B f l. induction l as [|a l IH]; simpl; [reflexivity|]. rewrite IH. reflexivity. Qed.

Lemma combine_map_map : forall (A B C : Type) (f : A -> B) (g : A -> C) l,
    combine (map f l) (map g l) = map (fun x => (f x, g x)) l.
Proof. intros A B C f g l. induction l as [|a l IH]; simpl; [reflexivity|]. rewrite IH. reflexivity. Qed.

Lemma strongly_sorted_before : forall (A : Type) (R : A -> A -> Prop) l x,
    StronglySorted R (l ++ [x]) -> forall p, In p l -> R p x.
Proof.
  intros A R l x. induction l as [|a l IH]; intros H p Hp; [destruct Hp|].
  simpl in H. apply StronglySorted_inv in H as [H1 H2].
  destruct Hp as [<-|Hp].
  - rewrite Forall_forall in H2. apply H2. apply in_or_app. right. left. reflexivity.
  - apply IH; assumption.
Qed.

Section Pruning.
Variable V : Type.
Variable V_compare : V -> V -> Z.
Hypothesis V_anti : forall a b, V_compare b a = - V_compare a b.
Hypothesis V_trans : forall a b c, V_compare a b <= 0 -> V_compare b c <= 0 -> V_compare a c <= 0.
Variable key : list (bool * bool).
Variables (self : Segment V) (segs : list (Segment V)) (rows_to_sort : nat)
          (filter_array : list (list Z)) (least_num middle_num : nat).
Hypothesis Hok : get_filter_array V V_compare self segs rows_to_sort (sort_descs key) =
                   (Status_OK, filter_array, least_num, middle_num).
Hypothesis Hrange : (0 < rows_to_sort <= seg_num_rows V self)%nat.
Hypothesis Hsorted : Sorted (row_le V V_compare (sort_descs key))
                       (firstn rows_to_sort (segment_rows V self)).

Local Abbreviation K := rows_to_sort.
Local Abbreviation cmpr := (row_compare V V_compare (sort_descs key)).
Local Abbreviation ws p := (length (order_by_columns (fst p)) = length key).
Local Abbreviation anchor := (self, (rows_to_sort - 1)%nat).
Local Abbreviation keep p := (cmpr p anchor <=? 0).
Local Abbreviation ins := (insert_row V V_compare (sort_descs key)).
Local Abbreviation fold l acc := (fold_left (fun t0 x0 => ins x0 t0) l acc).

Lemma shape_ws : forall s, segment_shape_ok V (length (sort_descs key)) s = true ->
    forall p, In p (segment_rows V s) -> ws p.
Proof.
  intros s Hs p Hp. unfold segment_shape_ok in Hs.
  apply andb_prop in Hs as [Hs _]. apply Nat.eqb_eq in Hs.
  unfold segment_rows in Hp. apply in_map_iff in Hp as (j & <- & _). simpl.
  rewrite Hs. unfold sort_descs. apply length_map.
Qed.

Lemma self_shape : segment_shape_ok V (length (sort_descs key)) self = true.
Proof. exact (proj1 (get_filter_array_spec V V_compare self segs K _ _ _ _ Hok)). Qed.

Lemma segs_shape : forall s, In s segs -> segment_shape_ok V (length (sort_descs key)) s = true.
Proof.
  intros s Hs. pose proof (proj1 (proj2 (get_filter_array_spec V V_compare self segs K _ _ _ _ Hok))) as H.
  rewrite forallb_forall in H. apply H. exact Hs.
Qed.

Lemma all_rows_ws : forall p, In p (all_rows V self segs) -> ws p.
Proof.
  intros p Hp. unfold all_rows in Hp. apply in_app_or in Hp as [Hp|Hp].
  - exact (shape_ws self self_shape p Hp).
  - apply in_concat in Hp as (l & Hl & Hp). apply in_map_iff in Hl as (s & <- & Hs).
    exact (shape_ws s (segs_shape s Hs) p Hp).
Qed.

Lemma anchor_ws : ws anchor.
Proof.
  apply (shape_ws self self_shape). unfold segment_rows. apply in_map.
  apply in_seq. unfold seg_num_rows in *. lia.
Qed.

Lemma prefix_rows : firstn K (segment_rows V self) =
    map (fun j => (self, j)) (seq 0 (K - 1)) ++ [anchor].
Proof.
  unfold segment_rows. rewrite firstn_map, firstn_seq by (unfold seg_num_rows in *; lia).
  replace K with (S (K - 1)) at 1 by lia. rewrite seq_S, map_app. reflexivity.
Qed.

Lemma prefix_le_anchor : forall p, In p (firstn K (segment_rows V self)) -> cmpr p anchor <= 0.
Proof.
  intros p Hp.
  assert (Hws : Forall (fun p => ws p) (firstn K (segment_rows V self))).
  { rewrite Forall_forall. intros q Hq. apply (shape_ws self self_shape). eapply in_firstn. exact Hq. }
  pose proof (sorted_strongly V V_compare V_anti V_trans key _ Hws Hsorted) as Hss.
  rewrite prefix_rows in Hss, Hp. apply in_app_or in Hp as [Hp|[<-|[]]].
  - exact (strongly_sorted_before _ _ _ _ Hss p Hp).
  - rewrite (row_compare_refl V V_compare V_anti key anchor anchor_ws). lia.
Qed.

(** The verdict of a row of a candidate segment, read off [compare_at]. *)
Lemma excluded_worse : forall k s j, nth_error segs k = Some s ->
    nth_error (nth k filter_array []) j = Some LARGER_THAN_MAX_OF_SEGMENT ->
    (j < seg_num_rows V s)%nat /\ cmpr (s, j) anchor > 0.
Proof.
  intros k s j Hk Hj.
  destruct (get_filter_array_spec V V_compare self segs K _ _ _ _ Hok) as (_ & _ & Hfa & _ & _).
  rewrite Hfa in Hj. erewrite nth_error_nth in Hj; [|rewrite nth_error_map, Hk; reflexivity].
  rewrite nth_error_map, nth_error_seq in Hj.
  destruct (Nat.ltb_spec j (seg_num_rows V s)) as [Hlt|_]; [|discriminate].
  simpl in Hj. injection Hj as Hj. split; [exact Hlt|].
  unfold row_compare; simpl.
  unfold SMALLER_THAN_MIN_OF_SEGMENT, INCLUDE_IN_SEGMENT, LARGER_THAN_MAX_OF_SEGMENT in Hj.
  match type of Hj with context [?x <=? 0] => destruct (Z.leb_spec x 0) end;
  try match type of Hj with context [?x <? 0] => destruct (Z.ltb_spec x 0) end;
  try discriminate; lia.
Qed.
Lemma excluded_not_in_prefix : forall k s j, nth_error segs k = Some s ->
    nth_error (nth k filter_array []) j = Some LARGER_THAN_MAX_OF_SEGMENT ->
    forall sorted_rows, Permutation (all_rows V self segs) sorted_rows ->
    Sorted (row_le V V_compare (sort_descs key)) sorted_rows ->
    ~ In (s, j) (firstn K sorted_rows).
Proof.
  intros k s j Hk Hj ss Hperm Hsort Hin.
  destruct (excluded_worse k s j Hk Hj) as [Hjn Hgt].
  set (r := (s, j)) in *.
  assert (Hr : ws r).
  { apply (shape_ws s (segs_shape s (nth_error_In _ _ Hk))). unfold segment_rows.
    apply in_map. apply in_seq. lia. }
  set (lt_r := fun z => cmpr z r <? 0).
  (* at least K rows of the input are strictly better than r *)
  assert (Hmany : (K <= length (filter lt_r (all_rows V self segs)))%nat).
  { unfold all_rows. rewrite <- (firstn_skipn K (segment_rows V self)), <- app_assoc.
    rewrite filter_app, length_app.
    rewrite (forallb_filter_id lt_r).
    - rewrite length_firstn. unfold segment_rows. rewrite length_map, length_seq.
      unfold seg_num_rows in *. lia.
    - apply forallb_forall. intros p Hp. unfold lt_r. apply Z.ltb_lt.
      assert (Hpw : ws p) by (apply (shape_ws self self_shape); eapply in_firstn; exact Hp).
      apply (row_le_lt V V_compare V_anti V_trans key p anchor r Hpw anchor_ws Hr).
      + apply prefix_le_anchor. exact Hp.
      + rewrite (row_compare_anti V V_compare V_anti key r anchor Hr anchor_ws). lia. }
  rewrite (perm_filter_length _ lt_r _ _ Hperm) in Hmany.
  (* but in a sorted order only the rows before r are better than r *)
  assert (Hws : Forall (fun p => ws p) ss).
  { rewrite Forall_forall. intros p Hp. apply all_rows_ws.
    apply (Permutation_in p (Permutation_sym Hperm) Hp). }
  pose proof (sorted_strongly V V_compare V_anti V_trans key ss Hws Hsort) as Hss.
  apply in_split in Hin as (l1 & l2 & Hsplit).
  assert (Hlen : (length l1 < K)%nat).
  { pose proof (firstn_le_length K ss) as H. rewrite Hsplit, length_app in H. simpl in H. lia. }
  assert (Hss' : ss = l1 ++ r :: (l2 ++ skipn K ss)).
  { rewrite <- (firstn_skipn K ss) at 1. rewrite Hsplit, <- app_assoc. reflexivity. }
  rewrite Hss' in Hss, Hws.
  pose proof (strongly_sorted_after V _ _ _ _ Hss) as Hafter.
  assert (Hnone : filter lt_r (r :: l2 ++ skipn K ss) = []).
  { apply filter_none. intros z Hz. unfold lt_r. apply Z.ltb_ge.
    assert (Hzw : ws z).
    { rewrite Forall_forall in Hws. apply Hws. apply in_or_app. right. exact Hz. }
    destruct Hz as [<-|Hz].
    - rewrite (row_compare_refl V V_compare V_anti key r Hr). lia.
    - rewrite Forall_forall in Hafter. pose proof (Hafter z Hz) as Hrz. unfold row_le in Hrz.
      rewrite (row_compare_anti V V_compare V_anti key r z Hr Hzw). lia. }
  rewrite Hss', filter_app in Hmany. unfold Row in Hmany, Hnone.
  rewrite Hnone, app_nil_r in Hmany.
  pose proof (length_filter_le _ lt_r l1). unfold Row in *. lia.
Qed.

Local Abbreviation inv t :=
  (le K (length t) /\ Forall (fun p => ws p) t /\
   (forall p, In p (firstn K t) -> cmpr p anchor <= 0)).

Lemma inv_insert : forall x t, ws x -> inv t -> inv (ins x t).
Proof.
  intros x t Hx (Hlen & Hws & Hpre).
  pose proof (insert_row_perm V V_compare (sort_descs key) x t) as Hp.
  split; [|split].
  - pose proof (Permutation_length Hp) as Hl. simpl in Hl. unfold Row, Segment in *. lia.
  - rewrite Forall_forall in *. intros p Hin.
    apply (Permutation_in p Hp) in Hin. destruct Hin as [<-|Hin]; auto.
  - intros p Hin.
    destruct (firstn_insert_row_in V V_compare _ K x t p Hlen Hin) as [H|(-> & a & Ha & Hxa)].
    + apply Hpre, H.
    + assert (Haw : ws a)
        by (rewrite Forall_forall in Hws; apply Hws; eapply in_firstn; exact Ha).
      pose proof (row_lt_le V V_compare V_anti V_trans key x a anchor Hx Haw anchor_ws
                    Hxa (Hpre a Ha)). lia.
Qed.

Lemma inv_fold : forall l t, Forall (fun p => ws p) l -> inv t -> inv (fold l t).
Proof.
  induction l as [|x l IH]; intros t Hl Ht; simpl; [exact Ht|].
  inversion Hl; subst. apply IH; [assumption|]. apply inv_insert; assumption.
Qed.

Lemma insert_excluded : forall x t, ws x -> inv t -> cmpr x anchor > 0 ->
    firstn K (ins x t) = firstn K t.
Proof.
  intros x t Hx (Hlen & Hws & Hpre) Hgt.
  apply firstn_insert_row_past; [exact Hlen|].
  intros a Ha.
  assert (Haw : ws a) by (rewrite Forall_forall in Hws; apply Hws; eapply in_firstn; exact Ha).
  assert (Hax : cmpr anchor x < 0)
    by (rewrite (row_compare_anti V V_compare V_anti key x anchor Hx anchor_ws); lia).
  pose proof (row_le_lt V V_compare V_anti V_trans key a anchor x Haw anchor_ws Hx (Hpre a Ha) Hax).
  rewrite (row_compare_anti V V_compare V_anti key a x Haw Hx). lia.
Qed.

Lemma fold_filter_keep : forall l t, Forall (fun p => ws p) l -> inv t ->
    firstn K (fold l t) = firstn K (fold (filter (fun p => keep p) l) t).
Proof.
  induction l as [|x l IH]; intros t Hl Ht; simpl; [reflexivity|].
  inversion Hl as [|? ? Hx Hl']; subst.
  destruct (Z.leb_spec (cmpr x anchor) 0) as [Hk|Hk]; simpl.
  - apply IH; [exact Hl'|]. apply inv_insert; assumption.
  - rewrite (fold_insert_congr V V_compare (sort_descs key) K l (ins x t) t
               (insert_excluded x t Hx Ht ltac:(lia))).
    apply IH; assumption.
Qed.

Lemma retained_eq : retained_rows V self segs filter_array =
    segment_rows V self ++ filter (fun p => keep p) (concat (map (segment_rows V) segs)).
Proof.
  destruct (get_filter_array_spec V V_compare self segs K _ _ _ _ Hok) as (_ & _ & Hfa & _ & _).
  unfold retained_rows. f_equal. rewrite Hfa, combine_map_self, map_map. simpl.
  rewrite <- concat_filter_map, map_map. f_equal. apply map_ext. intros s.
  unfold kept_rows, segment_rows. rewrite combine_map_map.
  induction (seq 0 (seg_num_rows V s)) as [|j l IH]; simpl; [reflexivity|].
  unfold row_compare, SMALLER_THAN_MIN_OF_SEGMENT, INCLUDE_IN_SEGMENT,
    LARGER_THAN_MAX_OF_SEGMENT in *; simpl.
  match goal with |- context [?x <=? 0] => destruct (Z.leb_spec x 0) end;
  try match goal with |- context [?x <? 0] => destruct (Z.ltb_spec x 0) end;
  simpl; rewrite IH; reflexivity.
Qed.

Lemma prune_exact :
    firstn K (full_sort V V_compare (sort_descs key) (all_rows V self segs)) =
    firstn K (full_sort V V_compare (sort_descs key) (retained_rows V self segs filter_array)).
Proof.
  rewrite retained_eq. unfold full_sort, all_rows.
  rewrite <- (firstn_skipn K (segment_rows V self)), <- !app_assoc, !fold_left_app.
  assert (Hws_self : forall p, In p (segment_rows V self) -> ws p)
    by (apply shape_ws, self_shape).
  assert (Hinv0 : inv (fold (firstn K (segment_rows V self)) (@nil (Row V)))).
  { pose proof (fold_insert_perm V V_compare (sort_descs key)
                  (firstn K (segment_rows V self)) (@nil (Row V))) as Hp.
    rewrite app_nil_r in Hp.
    assert (Hl : length (fold (firstn K (segment_rows V self)) (@nil (Row V))) = K).
    { rewrite (Permutation_length Hp), length_rev, length_firstn.
      unfold segment_rows. rewrite length_map, length_seq. unfold seg_num_rows in *. lia. }
    split; [lia|split].
    - rewrite Forall_forall. intros p Hin. apply Hws_self.
      apply (Permutation_in p Hp), in_rev in Hin. eapply in_firstn. exact Hin.
    - intros p Hin. rewrite firstn_all2 in Hin by lia.
      apply (Permutation_in p Hp), in_rev in Hin. apply prefix_le_anchor. exact Hin. }
  apply fold_filter_keep.
  - rewrite Forall_forall. intros p Hin. apply all_rows_ws. unfold all_rows.
    apply in_or_app. right. exact Hin.
  - apply inv_fold; [|exact Hinv0].
    rewrite Forall_forall. intros p Hin. apply Hws_self.
    rewrite <- (firstn_skipn K (segment_rows V self)). apply in_or_app. right. exact Hin.
Qed.

End Pruning.

(** ** Integer keys *)

Lemma int_compare_anti : forall a b, int_compare b a = - int_compare a b.
Proof.
  intros a b. unfold int_compare. rewrite Z.compare_antisym.
  destruct (Z.compare a b); reflexivity.
Qed.

Lemma int_compare_trans : forall a b c,
    int_compare a b <= 0 -> int_compare b c <= 0 -> int_compare a c <= 0.
Proof.
  intros a b c. unfold int_compare.
  destruct (Z.compare_spec a b), (Z.compare_spec b c), (Z.compare_spec a c); lia.
Qed.

(** ** Boundary pruning *)

(** C1: pruning is sound and exact. Let the reference segment's first
    [rows_to_sort] rows be sorted under the composite comparator, over a key
    type whose comparison is antisymmetric and transitive. Then (1) a row of
    a candidate segment that [get_filter_array] marks exclude is absent from
    the first [rows_to_sort] rows of every sorted arrangement of all rows
    seen so far, and (2) sorting all rows and taking the first
    [rows_to_sort] gives the same rows, in the same order, as sorting only
    the rows left after discarding the excluded ones. *)
Theorem pruning_sound_and_exact :
  forall (V : Type) (V_compare : V -> V -> Z),
    (forall a b, V_compare b a = - V_compare a b) ->
    (forall a b c, V_compare a b <= 0 -> V_compare b c <= 0 -> V_compare a c <= 0) ->
  forall (key : list (bool * bool)) (self : Segment V) (segs : list (Segment V))
         (rows_to_sort : nat) filter_array least_num middle_num,
    get_filter_array V V_compare self segs rows_to_sort (sort_descs key) =
      (Status_OK, filter_array, least_num, middle_num) ->
    (0 < rows_to_sort <= seg_num_rows V self)%nat ->
    Sorted (row_le V V_compare (sort_descs key)) (firstn rows_to_sort (segment_rows V self)) ->
    (forall k s j, nth_error segs k = Some s ->
       nth_error (nth k filter_array []) j = Some LARGER_THAN_MAX_OF_SEGMENT ->
       forall sorted_rows, Permutation (all_rows V self segs) sorted_rows ->
         Sorted (row_le V V_compare (sort_descs key)) sorted_rows ->
         ~ In (s, j) (firstn rows_to_sort sorted_rows)) /\
    firstn rows_to_sort (full_sort V V_compare (sort_descs key) (all_rows V self segs)) =
    firstn rows_to_sort
      (full_sort V V_compare (sort_descs key) (retained_rows V self segs filter_array)).
Proof.
  intros V V_compare Hanti Htrans key self segs rows_to_sort fa least middle Hok Hrange Hsorted.
  split.
  - exact (excluded_not_in_prefix V V_compare Hanti Htrans key self segs rows_to_sort
             fa least middle Hok Hrange Hsorted).
  - exact (prune_exact V V_compare Hanti Htrans key self segs rows_to_sort
             fa least middle Hok Hrange Hsorted).
Qed.

Lemma pruning_sound_and_exact_witness :
  get_filter_array Z int_compare ex_ref [ex_c1; ex_c2] 3 (sort_descs [(true, true)]) =
    (Status_OK, [[1; 1]; [0; 2; 2; 1]], 2%nat, 3%nat) /\
  (forall k s j, nth_error [ex_c1; ex_c2] k = Some s ->
     nth_error (nth k [[1; 1]; [0; 2; 2; 1]] []) j = Some LARGER_THAN_MAX_OF_SEGMENT ->
     forall sorted_rows, Permutation (all_rows Z ex_ref [ex_c1; ex_c2]) sorted_rows ->
       Sorted (row_le Z int_compare (sort_descs [(true, true)])) sorted_rows ->
       ~ In (s, j) (firstn 3 sorted_rows)) /\
  firstn 3 (full_sort Z int_compare (sort_descs [(true, true)]) (all_rows Z ex_ref [ex_c1; ex_c2])) =
  firstn 3 (full_sort Z int_compare (sort_descs [(true, true)])
              (retained_rows Z ex_ref [ex_c1; ex_c2] [[1; 1]; [0; 2; 2; 1]])).
Proof.
  assert (Hok : get_filter_array Z int_compare ex_ref [ex_c1; ex_c2] 3 (sort_descs [(true, true)]) =
                  (Status_OK, [[1; 1]; [0; 2; 2; 1]], 2%nat, 3%nat)) by (vm_compute; reflexivity).
  split; [exact Hok|].
  apply (pruning_sound_and_exact Z int_compare int_compare_anti int_compare_trans
           [(true, true)] ex_ref [ex_c1; ex_c2] 3 [[1; 1]; [0; 2; 2; 1]] 2 3 Hok).
  - unfold seg_num_rows; simpl; lia.
  - change (firstn 3 (segment_rows Z ex_ref)) with [(ex_ref, 0%nat); (ex_ref, 1%nat); (ex_ref, 2%nat)].
    repeat constructor; apply Z.leb_le; vm_compute; reflexivity.
Defined.

Lemma filter_array_two_pass_witness :
  (0 < 3 <= seg_num_rows Z ex_ref)%nat /\
  get_filter_array Z int_compare ex_ref [ex_c1; ex_c2] 3 (sort_descs [(true, true)]) =
    (Status_OK, [[1; 1]; [0; 2; 2; 1]], 2%nat, 3%nat) /\
  let sof := sort_order_flags (sort_descs [(true, true)]) in
  let nff := null_first_flags (sort_descs [(true, true)]) in
  let anchor s j := seg_compare_at Z int_compare s j ex_ref (3 - 1)%nat sof nff in
  let first s j := seg_compare_at Z int_compare s j ex_ref 0%nat sof nff in
  length [[1; 1]; [0; 2; 2; 1]] = length [ex_c1; ex_c2] /\
  forall k s, nth_error [ex_c1; ex_c2] k = Some s ->
    (forall j, (j < seg_num_rows Z s)%nat ->
       (nth j (first_pass Z int_compare ex_ref sof nff 3 s) 0 = LARGER_THAN_MAX_OF_SEGMENT
          <-> anchor s j > 0) /\
       (nth j (first_pass Z int_compare ex_ref sof nff 3 s) 0 = INCLUDE_IN_SEGMENT
          <-> anchor s j <= 0)) /\
    exists fl, nth_error [[1; 1]; [0; 2; 2; 1]] k = Some fl /\ length fl = seg_num_rows Z s /\
      forall j, (j < seg_num_rows Z s)%nat ->
        (nth j fl 0 = LARGER_THAN_MAX_OF_SEGMENT <-> anchor s j > 0) /\
        (nth j fl 0 = SMALLER_THAN_MIN_OF_SEGMENT <-> anchor s j <= 0 /\ first s j < 0) /\
        (nth j fl 0 = INCLUDE_IN_SEGMENT <-> anchor s j <= 0 /\ first s j >= 0).
Proof.
  assert (H1 : (0 < 3 <= seg_num_rows Z ex_ref)%nat) by (unfold seg_num_rows; simpl; lia).
  assert (H2 : get_filter_array Z int_compare ex_ref [ex_c1; ex_c2] 3 (sort_descs [(true, true)]) =
                 (Status_OK, [[1; 1]; [0; 2; 2; 1]], 2%nat, 3%nat)) by (vm_compute; reflexivity).
  split; [exact H1|]. split; [exact H2|].
  exact (filter_array_two_pass Z int_compare ex_ref [ex_c1; ex_c2] 3 (sort_descs [(true, true)])
           [[1; 1]; [0; 2; 2; 1]] 2 3 H1 H2).
Defined.

Lemma filter_array_counts_witness :
  get_filter_array Z int_compare ex_ref [ex_c1; ex_c2] 3 (sort_descs [(true, true)]) =
    (Status_OK, [[1; 1]; [0; 2; 2; 1]], 2%nat, 3%nat) /\
  2%nat = count_occ Z.eq_dec (concat [[1; 1]; [0; 2; 2; 1]]) SMALLER_THAN_MIN_OF_SEGMENT /\
  3%nat = count_occ Z.eq_dec (concat [[1; 1]; [0; 2; 2; 1]]) INCLUDE_IN_SEGMENT.
Proof.
  assert (H : get_filter_array Z int_compare ex_ref [ex_c1; ex_c2] 3 (sort_descs [(true, true)]) =
                (Status_OK, [[1; 1]; [0; 2; 2; 1]], 2%nat, 3%nat)) by (vm_compute; reflexivity).
  split; [exact H|].
  exact (filter_array_counts Z int_compare ex_ref [ex_c1; ex_c2] 3 (sort_descs [(true, true)])
           [[1; 1]; [0; 2; 2; 1]] 2 3 H).
Defined.

Lemma null_ordering_witness :
  length (order_by_columns ex_null) = length [(false, true)] /\
  (0 < length [(false, true)])%nat /\
  let r key' := seg_compare_at Z int_compare ex_null 0 ex_seven 0
                  (sort_order_flags (sort_descs key')) (null_first_flags (sort_descs key')) in
  (cell ex_null 0 0 = None -> forall v, cell ex_seven 0 0 = Some v ->
     (snd (nth 0 [(false, true)] (true, true)) = true -> r [(false, true)] < 0) /\
     (snd (nth 0 [(false, true)] (true, true)) = false -> r [(false, true)] > 0)) /\
  (cell ex_null 0 0 = None -> cell ex_seven 0 0 = None ->
     raw_compare (NullableColumn_compare_at Z int_compare) [] ex_null 0 ex_seven 0
       (null_first_flags (sort_descs [(false, true)])) 0 = 0 /\
     forall key', length key' = length [(false, true)] ->
       (forall m, m <> 0%nat -> nth m key' (true, true) = nth m [(false, true)] (true, true)) ->
       snd (nth 0 key' (true, true)) = snd (nth 0 [(false, true)] (true, true)) ->
       r key' = r [(false, true)]).
Proof.
  assert (H1 : length (order_by_columns ex_null) = length [(false, true)]) by reflexivity.
  assert (H2 : (0 < length [(false, true)])%nat) by (simpl; lia).
  split; [exact H1|]. split; [exact H2|].
  exact (null_ordering Z int_compare [(false, true)] ex_null ex_seven 0 0 0 H1 H2
           (fun m Hm => False_ind _ (Nat.nlt_0_r m Hm))).
Defined.

(** ** Runtime filters *)

(** C6: filter direction. For a boundary value read from the data column at
    [rid], the builder produces a filter that accepts exactly the values
    [v <= boundary] when the column is ascending and [v >= boundary] when it
    is descending, for any key type and its order [le]. *)
Theorem runtime_filter_direction :
  forall (T : Type) (le : T -> T -> bool) (column : ColumnPtr T) (rid : nat) (asc : bool)
         (boundary : T),
    nth_error (get_data_column T column) rid = Some boundary ->
    exists f, SortRuntimeFilterBuilder T column rid asc = Some f /\
      forall v, filter_accepts T le f v = (if asc then le v boundary else le boundary v).
Proof.
  intros T le column rid asc b Hb. unfold SortRuntimeFilterBuilder. rewrite Hb.
  eexists; split; [reflexivity|].
  intros v. destruct asc; simpl; [reflexivity|apply andb_true_r].
Qed.

Lemma runtime_filter_direction_witness :
  nth_error (get_data_column Z (DataColumn [5; 3; 8])) 1 = Some 3 /\
  exists f, SortRuntimeFilterBuilder Z (DataColumn [5; 3; 8]) 1 true = Some f /\
    forall v, filter_accepts Z Z.leb f v = (if true then Z.leb v 3 else Z.leb 3 v).
Proof.
  assert (H : nth_error (get_data_column Z (DataColumn [5; 3; 8])) 1 = Some 3) by reflexivity.
  split; [exact H|].
  exact (runtime_filter_direction Z Z.leb (DataColumn [5; 3; 8]) 1 true 3 H).
Defined.

(** The side a filter leaves open (the lower bound for an ascending column,
    the upper one for a descending column) stays open under updates. *)
Definition open_side {T : Type} (asc : bool) (f : RuntimeBloomFilter T) : Prop :=
  if asc then rf_min f = None else rf_max f = None.

Lemma builder_open_side : forall T column rid asc f,
    SortRuntimeFilterBuilder T column rid asc = Some f -> open_side asc f.
Proof.
  intros T column rid asc f H. unfold SortRuntimeFilterBuilder in H.
  destruct (nth_error _ rid); [|discriminate]. injection H as <-.
  destruct asc; reflexivity.
Qed.

Lemma updater_open_side : forall T f column rid asc f',
    open_side asc f -> SortRuntimeFilterUpdater T f column rid asc = Some f' -> open_side asc f'.
Proof.
  intros T f column rid asc f' Hf H. unfold SortRuntimeFilterUpdater in H.
  destruct (nth_error _ rid); [|discriminate]. injection H as <-.
  destruct asc; exact Hf.
Qed.

Lemma updates_open_side : forall T updates f asc f',
    open_side asc f -> apply_filter_updates T f updates asc = Some f' -> open_side asc f'.
Proof.
  intros T updates. induction updates as [|[column rid] updates IH]; intros f asc f' Hf H; simpl in H.
  - injection H as <-. exact Hf.
  - destruct (SortRuntimeFilterUpdater T f column rid asc) as [g|] eqn:Hg; [|discriminate].
    apply (IH g asc f'); [|exact H]. exact (updater_open_side T f column rid asc g Hf Hg).
Qed.

Lemma updater_rederives : forall T f column rid asc,
    open_side asc f ->
    SortRuntimeFilterUpdater T f column rid asc = SortRuntimeFilterBuilder T column rid asc.
Proof.
  intros T f column rid asc Hf. unfold SortRuntimeFilterUpdater, SortRuntimeFilterBuilder.
  destruct (nth_error _ rid) as [data|]; [|reflexivity].
  destruct f as [mn mx]. unfold open_side in Hf. simpl in Hf.
  destruct asc; subst; reflexivity.
Qed.

(** C7: re-derivation. Take a filter built for a column with direction
    [asc] and refreshed any number of times with the same direction. Applying
    the updater with a new boundary row gives exactly the filter the builder
    makes fresh from that row, so both accept the same values. *)
Theorem filter_update_rederives :
  forall (T : Type) (le : T -> T -> bool) (column0 : ColumnPtr T) (rid0 : nat) (asc : bool)
         (f0 : RuntimeBloomFilter T) (updates : list (ColumnPtr T * nat))
         (f : RuntimeBloomFilter T) (column : ColumnPtr T) (rid : nat),
    SortRuntimeFilterBuilder T column0 rid0 asc = Some f0 ->
    apply_filter_updates T f0 updates asc = Some f ->
    SortRuntimeFilterUpdater T f column rid asc = SortRuntimeFilterBuilder T column rid asc /\
    forall f' g, SortRuntimeFilterUpdater T f column rid asc = Some f' ->
      SortRuntimeFilterBuilder T column rid asc = Some g ->
      forall v, filter_accepts T le f' v = filter_accepts T le g v.
Proof.
  intros T le column0 rid0 asc f0 updates f column rid H0 Hup.
  pose proof (updates_open_side T updates f0 asc f (builder_open_side T column0 rid0 asc f0 H0) Hup)
    as Hopen.
  pose proof (updater_rederives T f column rid asc Hopen) as Heq.
  split; [exact Heq|].
  intros f' g H1 H2 v. rewrite Heq, H2 in H1. injection H1 as ->. reflexivity.
Qed.

Lemma filter_update_rederives_witness :
  SortRuntimeFilterBuilder Z (DataColumn [5; 3; 8]) 0 true =
    Some (mkRuntimeBloomFilter None (Some 5)) /\
  apply_filter_updates Z (mkRuntimeBloomFilter None (Some 5)) [(DataColumn [5; 3; 8], 1%nat)] true =
    Some (mkRuntimeBloomFilter None (Some 3)) /\
  SortRuntimeFilterUpdater Z (mkRuntimeBloomFilter None (Some 3)) (DataColumn [2; 1]) 1 true =
    SortRuntimeFilterBuilder Z (DataColumn [2; 1]) 1 true /\
  forall f' g,
    SortRuntimeFilterUpdater Z (mkRuntimeBloomFilter None (Some 3)) (DataColumn [2; 1]) 1 true = Some f' ->
    SortRuntimeFilterBuilder Z (DataColumn [2; 1]) 1 true = Some g ->
    forall v, filter_accepts Z Z.leb f' v = filter_accepts Z Z.leb g v.
Proof.
  assert (H0 : SortRuntimeFilterBuilder Z (DataColumn [5; 3; 8]) 0 true =
                 Some (mkRuntimeBloomFilter None (Some 5))) by reflexivity.
  assert (H1 : apply_filter_updates Z (mkRuntimeBloomFilter None (Some 5))
                 [(DataColumn [5; 3; 8], 1%nat)] true =
               Some (mkRuntimeBloomFilter None (Some 3))) by reflexivity.
  split; [exact H0|]. split; [exact H1|].
  exact (filter_update_rederives Z Z.leb (DataColumn [5; 3; 8]) 0 true _ _ _ (DataColumn [2; 1]) 1
           H0 H1).
Defined.

(** ** Sort engine *)

Lemma reachable_accumulating_open : forall V V_compare d lim off (st : Engine V),
    reachable V V_compare d lim off st -> phase st = Accumulating -> is_sink_complete st = false.
Proof.
  intros V V_compare d lim off st Hr. induction Hr as [|st op Hr IH]; intros Hph; [reflexivity|].
  destruct op; simpl in *;
    unfold update, finish, done, get_next, get_sorted_runs in *;
    destruct (is_sink_complete st) eqn:E; destruct (phase st) eqn:P;
    repeat match goal with
           | |- context [if ?b then _ else _] => destruct b
           | H : context [if ?b then _ else _] |- _ => destruct b
           end;
    simpl in *; auto; try congruence;
    specialize (IH eq_refl); discriminate.
Qed.

(** C8: idempotent finish. From any state a sorter reaches while still
    [Accumulating], [finish] succeeds; a second [finish] succeeds and leaves
    the state as it is, so every later sequence of calls ([done],
    [get_next], [get_sorted_runs], ...) observes the same results after two
    [finish] calls as after one. *)
Theorem finish_idempotent :
  forall (V : Type) (V_compare : V -> V -> Z) (d : SortDescs) (lim off : nat) (st : Engine V),
    reachable V V_compare d lim off st -> phase st = Accumulating ->
    fst (finish V st) = Status_OK /\
    finish V (snd (finish V st)) = (Status_OK, snd (finish V st)) /\
    forall ops, run_ops V V_compare (snd (finish V (snd (finish V st)))) ops =
                run_ops V V_compare (snd (finish V st)) ops.
Proof.
  intros V V_compare d lim off st Hr Hph.
  pose proof (reachable_accumulating_open V V_compare d lim off st Hr Hph) as Hopen.
  assert (H2 : finish V (snd (finish V st)) = (Status_OK, snd (finish V st))).
  { unfold finish at 2 3. rewrite Hopen, Hph. reflexivity. }
  split; [unfold finish; rewrite Hopen, Hph; reflexivity|].
  split; [exact H2|]. intros ops. rewrite H2. reflexivity.
Qed.

Lemma finish_idempotent_witness :
  let st := snd (step Z int_compare (init_engine (sort_descs [(true, true)]) 3 0) (OpUpdate ex_c2)) in
  reachable Z int_compare (sort_descs [(true, true)]) 3 0 st /\ phase st = Accumulating /\
  fst (finish Z st) = Status_OK /\
  finish Z (snd (finish Z st)) = (Status_OK, snd (finish Z st)) /\
  forall ops, run_ops Z int_compare (snd (finish Z (snd (finish Z st)))) ops =
              run_ops Z int_compare (snd (finish Z st)) ops.
Proof.
  intros st.
  assert (Hr : reachable Z int_compare (sort_descs [(true, true)]) 3 0 st)
    by (apply reachable_step, reachable_init).
  assert (Hph : phase st = Accumulating) by (vm_compute; reflexivity).
  split; [exact Hr|]. split; [exact Hph|].
  exact (finish_idempotent Z int_compare (sort_descs [(true, true)]) 3 0 st Hr Hph).
Defined.

(** C9: input-shape error atomicity. A batch whose number of key columns
    differs from the sort key's arity, or one of whose key columns has a row
    count other than the batch's, makes [update] fail, and the sorter's
    state is left exactly as it was. *)
Theorem update_rejects_bad_shape :
  forall (V : Type) (V_compare : V -> V -> Z) (st : Engine V) (seg : Segment V),
    (length (order_by_columns seg) <> length (sort_desc st) \/
     exists col, In col (order_by_columns seg) /\ length col <> seg_num_rows V seg) ->
    fst (update V V_compare st seg) <> Status_OK /\ snd (update V V_compare st seg) = st.
Proof.
  intros V V_compare st seg Hbad.
  assert (Hshape : segment_shape_ok V (length (sort_desc st)) seg = false).
  { unfold segment_shape_ok. destruct Hbad as [Hn|(col & Hin & Hl)].
    - apply Nat.eqb_neq in Hn. rewrite Hn. reflexivity.
    - destruct (Nat.eqb _ _); simpl; [|reflexivity].
      apply not_true_iff_false. intros Hall. rewrite forallb_forall in Hall.
      specialize (Hall col Hin). apply Nat.eqb_eq in Hall. contradiction. }
  unfold update. destruct (is_sink_complete st); [split; [discriminate|reflexivity]|].
  destruct (phase st); try (split; [discriminate|reflexivity]).
  rewrite Hshape. split; [discriminate|reflexivity].
Qed.

Lemma update_rejects_bad_shape_witness :
  (length (order_by_columns (int_segment 2 [[Some 1]])) <>
     length (sort_desc (init_engine (V := Z) (sort_descs [(true, true)]) 3 0)) \/
   exists col, In col (order_by_columns (int_segment 2 [[Some 1]])) /\
     length col <> seg_num_rows Z (int_segment 2 [[Some 1]])) /\
  fst (update Z int_compare (init_engine (sort_descs [(true, true)]) 3 0) (int_segment 2 [[Some 1]]))
    <> Status_OK /\
  snd (update Z int_compare (init_engine (sort_descs [(true, true)]) 3 0) (int_segment 2 [[Some 1]]))
    = init_engine (sort_descs [(true, true)]) 3 0.
Proof.
  assert (H : length (order_by_columns (int_segment 2 [[Some 1]])) <>
                length (sort_desc (init_engine (V := Z) (sort_descs [(true, true)]) 3 0)) \/
              exists col, In col (order_by_columns (int_segment 2 [[Some 1]])) /\
                length col <> seg_num_rows Z (int_segment 2 [[Some 1]])).
  { right. exists [Some 1]. split; [left; reflexivity|]. unfold seg_num_rows; simpl; lia. }
  split; [exact H|].
  exact (update_rejects_bad_shape Z int_compare (init_engine (sort_descs [(true, true)]) 3 0)
           (int_segment 2 [[Some 1]]) H).
Defined.

(** * Further properties of the header's code *)

(** ** The composite comparator *)

Lemma nth_map_opp : forall (l : list Z) k, nth k (map Z.opp l) 0 = - nth k l 0.
Proof. induction l as [|a l IH]; intros [|k]; simpl; auto. Qed.

Lemma compare_at_loop_opp :
  forall (Column : Type) (cc : Column -> nat -> nat -> Column -> Z -> Z) (d : Column)
         fuel ci A B i j sof nff,
    compare_at_loop cc d fuel ci A B i j (map Z.opp sof) nff =
    - compare_at_loop cc d fuel ci A B i j sof nff.
Proof.
  intros Column cc d fuel. induction fuel as [|fuel IH]; intros ci A B i j sof nff; [reflexivity|].
  simpl. rewrite nth_map_opp.
  destruct (negb (cc (nth ci A d) i j (nth ci B d) (nth ci nff 0) =? 0)); [lia|apply IH].
Qed.

(** [compare_at] is antisymmetric whenever the columns' own [compare_at]
    is, for two segments with the same number of key columns: comparing
    [other] at [j] with [self] at [i] gives the negation of comparing [self]
    at [i] with [other] at [j]. *)
Theorem compare_at_antisymmetric :
  forall (Chunk Column : Type) (cc : Column -> nat -> nat -> Column -> Z -> Z) (d : Column)
         (self other : DataSegment Chunk Column) (i j : nat) (sof nff : list Z),
    (forall a b i j h, cc b j i a h = - cc a i j b h) ->
    length (order_by_columns other) = length (order_by_columns self) ->
    compare_at cc d other j self i sof nff = - compare_at cc d self i other j sof nff.
Proof.
  intros Chunk Column cc d self other i j sof nff Hanti Hlen.
  unfold compare_at. rewrite Hlen.
  apply compare_at_loop_anti. intros k _ A B i' j'. apply Hanti.
Qed.

(** Under the same hypothesis, a row compares equal to itself. *)
Theorem compare_at_reflexive :
  forall (Chunk Column : Type) (cc : Column -> nat -> nat -> Column -> Z -> Z) (d : Column)
         (self : DataSegment Chunk Column) (i : nat) (sof nff : list Z),
    (forall a b i j h, cc b j i a h = - cc a i j b h) ->
    compare_at cc d self i self i sof nff = 0.
Proof.
  intros Chunk Column cc d self i sof nff Hanti.
  assert (H : compare_at_loop cc d (length (order_by_columns self)) 0
                (order_by_columns self) (order_by_columns self) i i sof nff =
              - compare_at_loop cc d (length (order_by_columns self)) 0
                (order_by_columns self) (order_by_columns self) i i sof nff)
    by (apply compare_at_loop_anti; intros k _ A B i' j'; apply Hanti).
  unfold compare_at. lia.
Qed.

(** [compare_at] is transitive ([<= 0] composes) for segments with the same
    number of key columns, when the columns' [compare_at] is antisymmetric
    and transitive under each column's null flag and every direction flag
    is [1] or [-1]. *)
Theorem compare_at_transitive :
  forall (Chunk Column : Type) (cc : Column -> nat -> nat -> Column -> Z -> Z) (d : Column)
         (A B D : DataSegment Chunk Column) (i j l : nat) (sof nff : list Z),
    (forall a b i j h, cc b j i a h = - cc a i j b h) ->
    (forall k, (k < length (order_by_columns A))%nat -> forall a b c i j l,
       cc a i j b (nth k nff 0) <= 0 -> cc b j l c (nth k nff 0) <= 0 ->
       cc a i l c (nth k nff 0) <= 0) ->
    (forall k, (k < length (order_by_columns A))%nat -> nth k sof 0 = 1 \/ nth k sof 0 = -1) ->
    length (order_by_columns B) = length (order_by_columns A) ->
    length (order_by_columns D) = length (order_by_columns A) ->
    compare_at cc d A i B j sof nff <= 0 -> compare_at cc d B j D l sof nff <= 0 ->
    compare_at cc d A i D l sof nff <= 0.
Proof.
  intros Chunk Column cc d A B D i j l sof nff Hanti Htrans Hdir HB HD H1 H2.
  unfold compare_at in *. rewrite HB in H2.
  apply (compare_at_loop_trans Column cc d sof nff _ 0 _ (order_by_columns B) _ i j l);
    [intros k _ A' B' i' j'; apply Hanti
    |intros k Hk A' B' D' i' j' l'; apply Htrans; lia
    |intros k Hk; apply Hdir; lia
    |exact H1|exact H2].
Qed.

(** Negating every direction flag negates the result of [compare_at]: the
    order with all directions reversed is the reverse order. *)
Theorem compare_at_reverse_directions :
  forall (Chunk Column : Type) (cc : Column -> nat -> nat -> Column -> Z -> Z) (d : Column)
         (self other : DataSegment Chunk Column) (i j : nat) (sof nff : list Z),
    compare_at cc d self i other j (map Z.opp sof) nff = - compare_at cc d self i other j sof nff.
Proof. intros. unfold compare_at. apply compare_at_loop_opp. Qed.

(** [compare_at] reads the direction and null flags only at the positions
    of its own key columns: flag lists that agree there give the same
    result, whatever they hold further on. *)
Theorem compare_at_reads_leading_flags :
  forall (Chunk Column : Type) (cc : Column -> nat -> nat -> Column -> Z -> Z) (d : Column)
         (self other : DataSegment Chunk Column) (i j : nat) (sof nff sof' nff' : list Z),
    (forall k, (k < length (order_by_columns self))%nat ->
       nth k sof 0 = nth k sof' 0 /\ nth k nff 0 = nth k nff' 0) ->
    compare_at cc d self i other j sof nff = compare_at cc d self i other j sof' nff'.
Proof.
  intros Chunk Column cc d self other i j sof nff sof' nff' Hagree.
  unfold compare_at. apply compare_at_loop_ext.
  intros k Hk. destruct (Hagree k ltac:(lia)) as [Es En]. rewrite En. split; [reflexivity|].
  intros _. exact Es.
Qed.

Lemma nullable_int_anti : forall (a b : NullableColumn Z) i j h,
    NullableColumn_compare_at Z int_compare b j i a h =
    - NullableColumn_compare_at Z int_compare a i j b h.
Proof.
  intros a b i j h. unfold NullableColumn_compare_at.
  apply nullable_compare_anti. exact int_compare_anti.
Qed.

Lemma nullable_int_trans : forall h, h = 1 \/ h = -1 -> forall (a b c : NullableColumn Z) i j l,
    NullableColumn_compare_at Z int_compare a i j b h <= 0 ->
    NullableColumn_compare_at Z int_compare b j l c h <= 0 ->
    NullableColumn_compare_at Z int_compare a i l c h <= 0.
Proof.
  intros h Hh a b c i j l. unfold NullableColumn_compare_at.
  apply nullable_compare_trans; [exact int_compare_trans|exact Hh].
Qed.

Lemma compare_at_antisymmetric_witness :
  length (order_by_columns ex_c2) = length (order_by_columns ex_ref) /\
  compare_at (NullableColumn_compare_at Z int_compare) [] ex_c2 1 ex_ref 0 [1] [-1] =
  - compare_at (NullableColumn_compare_at Z int_compare) [] ex_ref 0 ex_c2 1 [1] [-1].
Proof.
  assert (H : length (order_by_columns ex_c2) = length (order_by_columns ex_ref)) by reflexivity.
  split; [exact H|].
  exact (compare_at_antisymmetric Chunk (NullableColumn Z) (NullableColumn_compare_at Z int_compare) []
           ex_ref ex_c2 0 1 [1] [-1] nullable_int_anti H).
Defined.

Lemma compare_at_reflexive_witness :
  compare_at (NullableColumn_compare_at Z int_compare) [] ex_c2 1 ex_c2 1 [-1] [1] = 0.
Proof.
  exact (compare_at_reflexive Chunk (NullableColumn Z) (NullableColumn_compare_at Z int_compare) []
           ex_c2 1 [-1] [1] nullable_int_anti).
Defined.

Lemma compare_at_transitive_witness :
  compare_at (NullableColumn_compare_at Z int_compare) [] ex_c2 1 ex_ref 0 [1] [-1] <= 0 /\
  compare_at (NullableColumn_compare_at Z int_compare) [] ex_ref 0 ex_c1 0 [1] [-1] <= 0 /\
  compare_at (NullableColumn_compare_at Z int_compare) [] ex_c2 1 ex_c1 0 [1] [-1] <= 0.
Proof.
  assert (H1 : compare_at (NullableColumn_compare_at Z int_compare) [] ex_c2 1 ex_ref 0 [1] [-1] <= 0)
    by (apply Z.leb_le; vm_compute; reflexivity).
  assert (H2 : compare_at (NullableColumn_compare_at Z int_compare) [] ex_ref 0 ex_c1 0 [1] [-1] <= 0)
    by (apply Z.leb_le; vm_compute; reflexivity).
  split; [exact H1|]. split; [exact H2|].
  refine (compare_at_transitive Chunk (NullableColumn Z) (NullableColumn_compare_at Z int_compare) []
            ex_c2 ex_ref ex_c1 1 0 0 [1] [-1] nullable_int_anti _ _ eq_refl eq_refl H1 H2).
  - intros k Hk. apply nullable_int_trans. destruct k as [|k]; [right; reflexivity|simpl in Hk; lia].
  - intros k Hk. destruct k as [|k]; [left; reflexivity|simpl in Hk; lia].
Defined.

Lemma compare_at_reads_leading_flags_witness :
  (forall k, (k < length (order_by_columns ex_ref))%nat ->
     nth k [1] 0 = nth k [1; -1; 7] 0 /\ nth k [-1] 0 = nth k [-1; 1] 0) /\
  compare_at (NullableColumn_compare_at Z int_compare) [] ex_ref 2 ex_c2 0 [1] [-1] =
  compare_at (NullableColumn_compare_at Z int_compare) [] ex_ref 2 ex_c2 0 [1; -1; 7] [-1; 1].
Proof.
  assert (H : forall k, (k < length (order_by_columns ex_ref))%nat ->
                nth k [1] 0 = nth k [1; -1; 7] 0 /\ nth k [-1] 0 = nth k [-1; 1] 0).
  { intros k Hk. destruct k as [|k]; [split; reflexivity|simpl in Hk; lia]. }
  split; [exact H|].
  exact (compare_at_reads_leading_flags Chunk (NullableColumn Z) (NullableColumn_compare_at Z int_compare) []
           ex_ref ex_c2 2 0 [1] [-1] [1; -1; 7] [-1; 1] H).
Defined.

(** ** Runtime filters *)

(** Refreshing a built filter with a tighter boundary (a smaller one for an
    ascending column, a larger one for a descending column) only narrows
    it: every value the refreshed filter accepts, the old one accepted. *)
Theorem filter_refresh_narrows :
  forall (T : Type) (le : T -> T -> bool) (column0 : ColumnPtr T) (rid0 : nat)
         (column : ColumnPtr T) (rid : nat) (asc : bool) (b0 b : T) (f0 f : RuntimeBloomFilter T),
    (forall x y z, le x y = true -> le y z = true -> le x z = true) ->
    nth_error (get_data_column T column0) rid0 = Some b0 ->
    nth_error (get_data_column T column) rid = Some b ->
    (if asc then le b b0 else le b0 b) = true ->
    SortRuntimeFilterBuilder T column0 rid0 asc = Some f0 ->
    SortRuntimeFilterUpdater T f0 column rid asc = Some f ->
    forall v, filter_accepts T le f v = true -> filter_accepts T le f0 v = true.
Proof.
  intros T le column0 rid0 column rid asc b0 b f0 f Htrans Hb0 Hb Htight H0 H v Hv.
  unfold SortRuntimeFilterBuilder in H0. rewrite Hb0 in H0. injection H0 as <-.
  unfold SortRuntimeFilterUpdater in H. rewrite Hb in H. injection H as <-.
  destruct asc; unfold filter_accepts, update_min_max, create_with_range in *;
    cbn [rf_min rf_max full_range_filter] in *.
  - exact (Htrans v b b0 Hv Htight).
  - rewrite andb_true_r in Hv |- *. exact (Htrans b0 b v Htight Hv).
Qed.

Lemma filter_refresh_narrows_witness :
  nth_error (get_data_column Z (DataColumn [5; 3; 8])) 2 = Some 8 /\
  nth_error (get_data_column Z (NullableDataColumn [false; false] [6; 4])) 0 = Some 6 /\
  SortRuntimeFilterBuilder Z (DataColumn [5; 3; 8]) 2 true = Some (mkRuntimeBloomFilter None (Some 8)) /\
  SortRuntimeFilterUpdater Z (mkRuntimeBloomFilter None (Some 8))
    (NullableDataColumn [false; false] [6; 4]) 0 true = Some (mkRuntimeBloomFilter None (Some 6)) /\
  forall v, filter_accepts Z Z.leb (mkRuntimeBloomFilter None (Some 6)) v = true ->
    filter_accepts Z Z.leb (mkRuntimeBloomFilter None (Some 8)) v = true.
Proof.
  assert (Ht : forall x y z, Z.leb x y = true -> Z.leb y z = true -> Z.leb x z = true)
    by (intros x y z H1 H2; apply Z.leb_le; apply Z.leb_le in H1, H2; lia).
  assert (H1 : nth_error (get_data_column Z (DataColumn [5; 3; 8])) 2 = Some 8) by reflexivity.
  assert (H2 : nth_error (get_data_column Z (NullableDataColumn [false; false] [6; 4])) 0 = Some 6)
    by reflexivity.
  assert (H3 : SortRuntimeFilterBuilder Z (DataColumn [5; 3; 8]) 2 true =
                 Some (mkRuntimeBloomFilter None (Some 8))) by reflexivity.
  assert (H4 : SortRuntimeFilterUpdater Z (mkRuntimeBloomFilter None (Some 8))
                 (NullableDataColumn [false; false] [6; 4]) 0 true =
               Some (mkRuntimeBloomFilter None (Some 6))) by reflexivity.
  split; [exact H1|]. split; [exact H2|]. split; [exact H3|]. split; [exact H4|].
  exact (filter_refresh_narrows Z Z.leb (DataColumn [5; 3; 8]) 2
           (NullableDataColumn [false; false] [6; 4]) 0 true 8 6 _ _ Ht H1 H2 eq_refl H3 H4).
Defined.

(** ** The filter array *)

Lemma filter_array_nth :
  forall (V : Type) (V_compare : V -> V -> Z) (self : Segment V) (segs : list (Segment V))
         (rows_to_sort : nat) (descs : SortDescs) fa least_num middle_num k s j,
    get_filter_array V V_compare self segs rows_to_sort descs =
      (Status_OK, fa, least_num, middle_num) ->
    nth_error segs k = Some s ->
    nth_error (nth k fa []) j =
      if Nat.ltb j (seg_num_rows V s) then
        Some (if seg_compare_at V V_compare s j self (rows_to_sort - 1)%nat
                   (sort_order_flags descs) (null_first_flags descs) <=? 0 then
                if seg_compare_at V V_compare s j self 0%nat
                     (sort_order_flags descs) (null_first_flags descs) <? 0
                then SMALLER_THAN_MIN_OF_SEGMENT else INCLUDE_IN_SEGMENT
              else LARGER_THAN_MAX_OF_SEGMENT)
      else None.
Proof.
  intros V V_compare self segs rows_to_sort descs fa least middle k s j Hok Hk.
  destruct (get_filter_array_spec V V_compare self segs rows_to_sort descs _ _ _ Hok)
    as (_ & _ & Hfa & _ & _).
  rewrite Hfa. erewrite nth_error_nth; [|rewrite nth_error_map, Hk; reflexivity].
  rewrite nth_error_map, nth_error_seq.
  destruct (Nat.ltb j (seg_num_rows V s)); reflexivity.
Qed.

Lemma count_three : forall l : list Z, Forall (fun x => x = 0 \/ x = 1 \/ x = 2) l ->
    (count_occ Z.eq_dec l 2%Z + count_occ Z.eq_dec l 1%Z + count_occ Z.eq_dec l 0%Z = length l)%nat.
Proof.
  induction l as [|a l IH]; intros H; [reflexivity|].
  inversion H as [|? ? Ha Hl]; subst. specialize (IH Hl). simpl.
  destruct Ha as [Ha|[Ha|Ha]]; subst a; simpl; lia.
Qed.

(** Every entry of the filter array is one of the three markers, so the
    rows marked tighten ([least_num]), those marked candidate
    ([middle_num]) and those marked exclude add up to the number of rows of
    all candidate segments. *)
Theorem filter_array_partition :
  forall (V : Type) (V_compare : V -> V -> Z) (self : Segment V) (segs : list (Segment V))
         (rows_to_sort : nat) (descs : SortDescs) filter_array least_num middle_num,
    get_filter_array V V_compare self segs rows_to_sort descs =
      (Status_OK, filter_array, least_num, middle_num) ->
    Forall (fun x => x = SMALLER_THAN_MIN_OF_SEGMENT \/ x = INCLUDE_IN_SEGMENT \/
                     x = LARGER_THAN_MAX_OF_SEGMENT) (concat filter_array) /\
    (least_num + middle_num +
       count_occ Z.eq_dec (concat filter_array) LARGER_THAN_MAX_OF_SEGMENT =
     list_sum (map (seg_num_rows V) segs))%nat.
Proof.
  intros V V_compare self segs rows_to_sort descs fa least middle Hok.
  destruct (get_filter_array_spec V V_compare self segs rows_to_sort descs _ _ _ Hok)
    as (_ & _ & Hfa & Hl & Hm).
  assert (Hall : Forall (fun x => x = SMALLER_THAN_MIN_OF_SEGMENT \/ x = INCLUDE_IN_SEGMENT \/
                                  x = LARGER_THAN_MAX_OF_SEGMENT) (concat fa)).
  { rewrite Forall_forall. intros x Hx. rewrite Hfa in Hx.
    apply in_concat in Hx as (row & Hrow & Hx). apply in_map_iff in Hrow as (s & <- & _).
    apply in_map_iff in Hx as (j & <- & _).
    destruct (_ <=? 0); [destruct (_ <? 0)|]; auto. }
  split; [exact Hall|].
  rewrite Hl, Hm.
  assert (Hall' : Forall (fun x => x = 0 \/ x = 1 \/ x = 2) (concat fa)).
  { eapply Forall_impl; [|exact Hall]. unfold SMALLER_THAN_MIN_OF_SEGMENT, INCLUDE_IN_SEGMENT,
      LARGER_THAN_MAX_OF_SEGMENT. intros x [H|[H|H]]; auto. }
  unfold SMALLER_THAN_MIN_OF_SEGMENT, INCLUDE_IN_SEGMENT, LARGER_THAN_MAX_OF_SEGMENT.
  rewrite (count_three _ Hall'), length_concat, Hfa, map_map. f_equal.
  apply map_ext. intros s. rewrite length_map, length_seq. reflexivity.
Qed.

Lemma filter_array_partition_witness :
  get_filter_array Z int_compare ex_ref [ex_c1; ex_c2] 3 (sort_descs [(true, true)]) =
    (Status_OK, [[1; 1]; [0; 2; 2; 1]], 2%nat, 3%nat) /\
  Forall (fun x => x = SMALLER_THAN_MIN_OF_SEGMENT \/ x = INCLUDE_IN_SEGMENT \/
                   x = LARGER_THAN_MAX_OF_SEGMENT) (concat [[1; 1]; [0; 2; 2; 1]]) /\
  Nat.add (Nat.add 2%nat 3%nat)
    (count_occ Z.eq_dec (concat [[1; 1]; [0; 2; 2; 1]]) LARGER_THAN_MAX_OF_SEGMENT) =
  list_sum (map (seg_num_rows Z) [ex_c1; ex_c2]).
Proof.
  assert (H : get_filter_array Z int_compare ex_ref [ex_c1; ex_c2] 3 (sort_descs [(true, true)]) =
                (Status_OK, [[1; 1]; [0; 2; 2; 1]], 2%nat, 3%nat)) by (vm_compute; reflexivity).
  split; [exact H|].
  exact (filter_array_partition Z int_compare ex_ref [ex_c1; ex_c2] 3 (sort_descs [(true, true)])
           [[1; 1]; [0; 2; 2; 1]] 2 3 H).
Defined.

Lemma strongly_sorted_seq : forall (A : Type) (R : A -> A -> Prop) (f : nat -> A) n start,
    StronglySorted R (map f (seq start n)) ->
    forall a b, (start <= a < b)%nat -> (b < start + n)%nat -> R (f a) (f b).
Proof.
  intros A R f n. induction n as [|n IH]; intros start Hs a b Hab Hb; [lia|].
  simpl in Hs. apply StronglySorted_inv in Hs as [Hs Hhd].
  destruct (Nat.eq_dec a start) as [->|Hne].
  - rewrite Forall_forall in Hhd. apply Hhd. apply in_map. apply in_seq. lia.
  - apply (IH (S start)); [exact Hs|lia|lia].
Qed.

Lemma prefix_rows_seq : forall (V : Type) (self : Segment V) K, (K <= seg_num_rows V self)%nat ->
    firstn K (segment_rows V self) = map (fun j => (self, j)) (seq 0 K).
Proof.
  intros V self K HK. unfold segment_rows. rewrite firstn_map, firstn_seq by lia. reflexivity.
Qed.

Lemma shape_ok_columns : forall (V : Type) (key : list (bool * bool)) (s : Segment V),
    segment_shape_ok V (length (sort_descs key)) s = true ->
    length (order_by_columns s) = length key.
Proof.
  intros V key s H. unfold segment_shape_ok in H. apply andb_prop in H as [H _].
  apply Nat.eqb_eq in H. rewrite H. unfold sort_descs. apply length_map.
Qed.

Lemma prefix_strongly_sorted :
  forall (V : Type) (V_compare : V -> V -> Z),
    (forall a b, V_compare b a = - V_compare a b) ->
    (forall a b c, V_compare a b <= 0 -> V_compare b c <= 0 -> V_compare a c <= 0) ->
  forall (key : list (bool * bool)) (self : Segment V) K,
    length (order_by_columns self) = length key -> (K <= seg_num_rows V self)%nat ->
    Sorted (row_le V V_compare (sort_descs key)) (firstn K (segment_rows V self)) ->
    forall a b, (a <= b < K)%nat ->
      row_compare V V_compare (sort_descs key) (self, a) (self, b) <= 0.
Proof.
  intros V V_compare Hanti Htrans key self K Hcols HK Hsorted a b Hab.
  destruct (Nat.eq_dec a b) as [->|Hne].
  - rewrite (row_compare_refl V V_compare Hanti key (self, b) Hcols). lia.
  - rewrite (prefix_rows_seq V self K HK) in Hsorted.
    assert (Hws : Forall (fun p : Row V => length (order_by_columns (fst p)) = length key)
                    (map (fun j => (self, j)) (seq 0 K))).
    { rewrite Forall_forall. intros p Hp. apply in_map_iff in Hp as (j & <- & _). exact Hcols. }
    pose proof (sorted_strongly V V_compare Hanti Htrans key _ Hws Hsorted) as Hss.
    exact (strongly_sorted_seq _ _ (fun j => (self, j)) K 0 Hss a b ltac:(lia) ltac:(lia)).
Qed.

(** A row marked tighten compares strictly before every row of the
    reference segment's first [rows_to_sort] rows, when that prefix is sorted
    and the key comparison is antisymmetric and transitive. *)
Theorem tightened_row_precedes_prefix :
  forall (V : Type) (V_compare : V -> V -> Z),
    (forall a b, V_compare b a = - V_compare a b) ->
    (forall a b c, V_compare a b <= 0 -> V_compare b c <= 0 -> V_compare a c <= 0) ->
  forall (key : list (bool * bool)) (self : Segment V) (segs : list (Segment V))
         (rows_to_sort : nat) filter_array least_num middle_num,
    get_filter_array V V_compare self segs rows_to_sort (sort_descs key) =
      (Status_OK, filter_array, least_num, middle_num) ->
    (0 < rows_to_sort <= seg_num_rows V self)%nat ->
    Sorted (row_le V V_compare (sort_descs key)) (firstn rows_to_sort (segment_rows V self)) ->
    forall k s j, nth_error segs k = Some s ->
      nth_error (nth k filter_array []) j = Some SMALLER_THAN_MIN_OF_SEGMENT ->
      forall p, In p (firstn rows_to_sort (segment_rows V self)) ->
        row_compare V V_compare (sort_descs key) (s, j) p < 0.
Proof.
  intros V V_compare Hanti Htrans key self segs K fa least middle Hok Hrange Hsorted
    k s j Hk Hj p Hp.
  destruct (get_filter_array_spec V V_compare self segs K _ _ _ _ Hok)
    as (Hself & Hsegs & _ & _ & _).
  pose proof (shape_ok_columns V key self Hself) as Hcs.
  assert (Hcs' : length (order_by_columns s) = length key).
  { apply (shape_ok_columns V key s). rewrite forallb_forall in Hsegs. apply Hsegs.
    eapply nth_error_In. exact Hk. }
  rewrite (filter_array_nth V V_compare self segs K _ _ _ _ k s j Hok Hk) in Hj.
  destruct (Nat.ltb j (seg_num_rows V s)); [|discriminate].
  assert (Hfirst : row_compare V V_compare (sort_descs key) (s, j) (self, 0%nat) < 0).
  { unfold row_compare. cbn [fst snd].
    unfold SMALLER_THAN_MIN_OF_SEGMENT, INCLUDE_IN_SEGMENT, LARGER_THAN_MAX_OF_SEGMENT in Hj.
    match type of Hj with context [?x <=? 0] => destruct (Z.leb_spec x 0) end;
    try match type of Hj with context [?x <? 0] => destruct (Z.ltb_spec x 0) end;
    try discriminate; lia. }
  rewrite (prefix_rows_seq V self K ltac:(lia)) in Hp.
  apply in_map_iff in Hp as (a & <- & Ha). apply in_seq in Ha.
  pose proof (prefix_strongly_sorted V V_compare Hanti Htrans key self K Hcs ltac:(lia) Hsorted
                0 a ltac:(lia)) as H0a.
  exact (row_lt_le V V_compare Hanti Htrans key (s, j) (self, 0%nat) (self, a) Hcs' Hcs Hcs
           Hfirst H0a).
Qed.

(** Exclusion is monotone in [rows_to_sort]: over the same segments, with a
    reference prefix sorted up to the larger bound, a row excluded when
    keeping [K2] rows is also excluded when keeping [K1 <= K2] rows. *)
Theorem exclusion_monotone_in_rows_to_sort :
  forall (V : Type) (V_compare : V -> V -> Z),
    (forall a b, V_compare b a = - V_compare a b) ->
    (forall a b c, V_compare a b <= 0 -> V_compare b c <= 0 -> V_compare a c <= 0) ->
  forall (key : list (bool * bool)) (self : Segment V) (segs : list (Segment V))
         (K1 K2 : nat) fa1 least1 middle1 fa2 least2 middle2,
    get_filter_array V V_compare self segs K1 (sort_descs key) = (Status_OK, fa1, least1, middle1) ->
    get_filter_array V V_compare self segs K2 (sort_descs key) = (Status_OK, fa2, least2, middle2) ->
    (0 < K1 <= K2)%nat -> (K2 <= seg_num_rows V self)%nat ->
    Sorted (row_le V V_compare (sort_descs key)) (firstn K2 (segment_rows V self)) ->
    forall k s j, nth_error segs k = Some s ->
      nth_error (nth k fa2 []) j = Some LARGER_THAN_MAX_OF_SEGMENT ->
      nth_error (nth k fa1 []) j = Some LARGER_THAN_MAX_OF_SEGMENT.
Proof.
  intros V V_compare Hanti Htrans key self segs K1 K2 fa1 l1 m1 fa2 l2 m2 Hok1 Hok2 HK HK2
    Hsorted k s j Hk Hj.
  destruct (get_filter_array_spec V V_compare self segs K2 _ _ _ _ Hok2)
    as (Hself & Hsegs & _ & _ & _).
  pose proof (shape_ok_columns V key self Hself) as Hcs.
  assert (Hcs' : length (order_by_columns s) = length key).
  { apply (shape_ok_columns V key s). rewrite forallb_forall in Hsegs. apply Hsegs.
    eapply nth_error_In. exact Hk. }
  rewrite (filter_array_nth V V_compare self segs K2 _ _ _ _ k s j Hok2 Hk) in Hj.
  rewrite (filter_array_nth V V_compare self segs K1 _ _ _ _ k s j Hok1 Hk).
  destruct (Nat.ltb j (seg_num_rows V s)); [|discriminate].
  assert (H2 : row_compare V V_compare (sort_descs key) (s, j) (self, (K2 - 1)%nat) > 0).
  { unfold row_compare. cbn [fst snd].
    unfold SMALLER_THAN_MIN_OF_SEGMENT, INCLUDE_IN_SEGMENT, LARGER_THAN_MAX_OF_SEGMENT in Hj.
    match type of Hj with context [?x <=? 0] => destruct (Z.leb_spec x 0) end;
    try match type of Hj with context [?x <? 0] => destruct (Z.ltb_spec x 0) end;
    try discriminate; lia. }
  pose proof (prefix_strongly_sorted V V_compare Hanti Htrans key self K2 Hcs HK2 Hsorted
                (K1 - 1) (K2 - 1) ltac:(lia)) as H12.
  unfold row_compare in H2, H12. cbn [fst snd] in H2, H12.
  match goal with |- context [?x <=? 0] => destruct (Z.leb_spec x 0) as [Hle|Hgt] end;
    [|reflexivity].
  exfalso.
  pose proof (row_compare_trans V V_compare Hanti Htrans key (s, j) (self, (K1 - 1)%nat)
                (self, (K2 - 1)%nat) Hcs' Hcs Hcs Hle H12) as H.
  unfold row_compare in H. cbn [fst snd] in H. lia.
Qed.

Lemma tightened_row_precedes_prefix_witness :
  get_filter_array Z int_compare ex_ref [ex_c1; ex_c2] 3 (sort_descs [(true, true)]) =
    (Status_OK, [[1; 1]; [0; 2; 2; 1]], 2%nat, 3%nat) /\
  forall k s j, nth_error [ex_c1; ex_c2] k = Some s ->
    nth_error (nth k [[1; 1]; [0; 2; 2; 1]] []) j = Some SMALLER_THAN_MIN_OF_SEGMENT ->
    forall p, In p (firstn 3 (segment_rows Z ex_ref)) ->
      row_compare Z int_compare (sort_descs [(true, true)]) (s, j) p < 0.
Proof.
  assert (Hok : get_filter_array Z int_compare ex_ref [ex_c1; ex_c2] 3 (sort_descs [(true, true)]) =
                  (Status_OK, [[1; 1]; [0; 2; 2; 1]], 2%nat, 3%nat)) by (vm_compute; reflexivity).
  split; [exact Hok|].
  apply (tightened_row_precedes_prefix Z int_compare int_compare_anti int_compare_trans
           [(true, true)] ex_ref [ex_c1; ex_c2] 3 [[1; 1]; [0; 2; 2; 1]] 2 3 Hok).
  - unfold seg_num_rows; simpl; lia.
  - change (firstn 3 (segment_rows Z ex_ref)) with [(ex_ref, 0%nat); (ex_ref, 1%nat); (ex_ref, 2%nat)].
    repeat constructor; apply Z.leb_le; vm_compute; reflexivity.
Defined.

Lemma exclusion_monotone_in_rows_to_sort_witness :
  get_filter_array Z int_compare ex_ref [ex_c1; ex_c2] 1 (sort_descs [(true, true)]) =
    (Status_OK, [[0; 0]; [0; 2; 2; 0]], 2%nat, 0%nat) /\
  get_filter_array Z int_compare ex_ref [ex_c1; ex_c2] 3 (sort_descs [(true, true)]) =
    (Status_OK, [[1; 1]; [0; 2; 2; 1]], 2%nat, 3%nat) /\
  forall k s j, nth_error [ex_c1; ex_c2] k = Some s ->
    nth_error (nth k [[1; 1]; [0; 2; 2; 1]] []) j = Some LARGER_THAN_MAX_OF_SEGMENT ->
    nth_error (nth k [[0; 0]; [0; 2; 2; 0]] []) j = Some LARGER_THAN_MAX_OF_SEGMENT.
Proof.
  assert (H1 : get_filter_array Z int_compare ex_ref [ex_c1; ex_c2] 1 (sort_descs [(true, true)]) =
                 (Status_OK, [[0; 0]; [0; 2; 2; 0]], 2%nat, 0%nat)) by (vm_compute; reflexivity).
  assert (H2 : get_filter_array Z int_compare ex_ref [ex_c1; ex_c2] 3 (sort_descs [(true, true)]) =
                 (Status_OK, [[1; 1]; [0; 2; 2; 1]], 2%nat, 3%nat)) by (vm_compute; reflexivity).
  split; [exact H1|]. split; [exact H2|].
  apply (exclusion_monotone_in_rows_to_sort Z int_compare int_compare_anti int_compare_trans
           [(true, true)] ex_ref [ex_c1; ex_c2] 1 3 _ 2 0 _ 2 3 H1 H2).
  - lia.
  - unfold seg_num_rows; simpl; lia.
  - change (firstn 3 (segment_rows Z ex_ref)) with [(ex_ref, 0%nat); (ex_ref, 1%nat); (ex_ref, 2%nat)].
    repeat constructor; apply Z.leb_le; vm_compute; reflexivity.
Defined.

